(** * healthcheck: liveness / readiness aggregation handler

    A shallow embedding of [handler.go] (package [healthcheck]) and of the
    database probe of package [db], with the properties of the handler
    stated and proved over it.

    [collectChecks] starts one goroutine per check and a closer goroutine
    that waits on the [sync.WaitGroup] and closes the results channel, and
    drains the channel in the calling goroutine.  The embedding keeps this
    as a transition system: a state holds the program point of every
    goroutine, the WaitGroup counter, the channel and what the caller has
    accumulated; a label names the goroutine that moves next; a schedule
    is a list of labels.  A property of the handler is proved for every
    schedule.

    What the embedding takes from outside the repository:
    - a check is opaque code, of which the model keeps what a call does
      (it returns nil, returns an error, or panics with a value that is
      not nil); a call that never returns, or that calls back into the
      handler while the read lock is held, has no counterpart here;
    - a callback is opaque code that returns normally and does not call
      back into the handler; the model records its calls as events; a
      callback that panics has no counterpart here;
    - [net/http] is modelled as far as [handle] uses it: the header map,
      the status code and the body of a response writer, and the parsed
      query of a request;
    - the unbuffered channel, the WaitGroup and [recover] behave as the Go
      specification says: a send is a rendezvous with the receiver, a
      send on a closed channel panics, and a panic in a goroutine that
      nothing recovers ends the process. *)

From stdpp Require Import gmap strings list fin_maps pretty.
From Stdlib Require Import ZArith.

(** ** Constants of [handler.go] and of [net/http] *)

Definition LivenessHandlerPath : string := "/live".
Definition ReadinessHandlerPath : string := "/ready".
Definition successCheckerResultString : string := "OK".

Definition MethodGet : string := "GET".
Definition StatusOK : Z := 200.
Definition StatusMethodNotAllowed : Z := 405.
Definition StatusServiceUnavailable : Z := 503.

(** ** Checks, callbacks, events *)

(** [type Check func() error].  A check is opaque code; the model keeps what
    a call of it does: it returns [nil] ([Returns None]), returns an error
    ([Returns (Some msg)], [msg] being what [err.Error()] yields), or panics
    with a value other than nil ([Panics v], [v] being the value as [%v]
    prints it).  A call of a check ends; a check whose call does not
    return is not a value of this type. *)
Inductive Check :=
  | Returns (err : option string)
  | Panics (v : string).

(** [type ErrorHandler func(name string, err error)].  A callback is an
    opaque function value that returns normally; the model keeps its
    identity and records every call of it as an event.  A callback that
    panics is not a value of this type. *)
Inductive ErrorHandler :=
  | Callback (id : nat).

Inductive Event :=
  | CheckCalled (name : string)
  | HandlerCalled (h : ErrorHandler) (name : string) (err : string).

#[global] Instance Check_eq_dec : EqDecision Check.
Proof. solve_decision. Defined.
#[global] Instance ErrorHandler_eq_dec : EqDecision ErrorHandler.
Proof. solve_decision. Defined.
#[global] Instance Event_eq_dec : EqDecision Event.
Proof. solve_decision. Defined.

(** ** The handler *)

(** [basicHandler].  [checksMutex] is the number of readers that hold the
    [sync.RWMutex]; the embedded [http.ServeMux] only routes the two paths
    to the two endpoints below. *)
Record basicHandler := {
  checksMutex : nat;
  livenessChecks : gmap string Check;
  readinessChecks : gmap string Check;
  errorHandler : option ErrorHandler
}.

Definition NewHandler : basicHandler :=
  {| checksMutex := 0; livenessChecks := ∅; readinessChecks := ∅;
     errorHandler := None |}.

Definition AddLivenessCheck (name : string) (check : Check)
    (s : basicHandler) : basicHandler :=
  {| checksMutex := checksMutex s;
     livenessChecks := <[name := check]> (livenessChecks s);
     readinessChecks := readinessChecks s;
     errorHandler := errorHandler s |}.

Definition AddReadinessCheck (name : string) (check : Check)
    (s : basicHandler) : basicHandler :=
  {| checksMutex := checksMutex s;
     livenessChecks := livenessChecks s;
     readinessChecks := <[name := check]> (readinessChecks s);
     errorHandler := errorHandler s |}.

Definition AddCheckErrorHandler (handler : ErrorHandler)
    (s : basicHandler) : basicHandler :=
  {| checksMutex := checksMutex s;
     livenessChecks := livenessChecks s;
     readinessChecks := readinessChecks s;
     errorHandler := Some handler |}.

Definition RLock (s : basicHandler) : basicHandler :=
  {| checksMutex := S (checksMutex s);
     livenessChecks := livenessChecks s;
     readinessChecks := readinessChecks s;
     errorHandler := errorHandler s |}.

Definition RUnlock (s : basicHandler) : basicHandler :=
  {| checksMutex := pred (checksMutex s);
     livenessChecks := livenessChecks s;
     readinessChecks := readinessChecks s;
     errorHandler := errorHandler s |}.

(** ** One pass of [collectChecks] as a transition system *)

(** Program points of the goroutine started for one check
    ([handler.go], lines 123-153). *)
Inductive gstate :=
  | GCall                       (* about to run [check()] *)
  | GSend (val : string)        (* at [results <- result{name, val}] *)
  | GDefer (r : option string)  (* deferred function, at [wg.Done()];
                                   [r] is what [recover()] will return *)
  | GPanicSend (v : string)     (* at the send inside [if r != nil] *)
  | GPanicReport (v : string)   (* after that send, at the callback *)
  | GExit                       (* returned *)
  | GDead.                      (* panicked with nothing left to recover *)

#[global] Instance gstate_eq_dec : EqDecision gstate.
Proof. solve_decision. Defined.

(** The state of one call.  [units] maps a check name to the closure
    [(name, check)] of its goroutine and its program point; [closed] says
    that the closer goroutine has closed [results], which is also when the
    [range] loop of the caller ends and [collectChecks] returns [status]
    (running the deferred [RUnlock]); [crashed] says that a goroutine died
    of a panic nobody recovers, which ends the process. *)
Record pass := {
  self : basicHandler;
  units : gmap string (Check * gstate);
  wg : nat;
  closed : bool;
  resultsOut : gmap string string;
  status : Z;
  trace : list Event;
  crashed : bool
}.

Definition with_unit (name : string) (c : Check) (g : gstate)
    (st : pass) : pass :=
  {| self := self st; units := <[name := (c, g)]> (units st); wg := wg st;
     closed := closed st; resultsOut := resultsOut st; status := status st;
     trace := trace st; crashed := crashed st |}.

Definition emit (evs : list Event) (st : pass) : pass :=
  {| self := self st; units := units st; wg := wg st;
     closed := closed st; resultsOut := resultsOut st; status := status st;
     trace := trace st ++ evs; crashed := crashed st |}.

(** The body of the [range results] loop for one received value. *)
Definition deliver (name val : string) (st : pass) : pass :=
  {| self := self st; units := units st; wg := wg st;
     closed := closed st;
     resultsOut := <[name := val]> (resultsOut st);
     status := if decide (val = successCheckerResultString)
               then status st else StatusServiceUnavailable;
     trace := trace st; crashed := crashed st |}.

Definition set_wg (n : nat) (st : pass) : pass :=
  {| self := self st; units := units st; wg := n;
     closed := closed st; resultsOut := resultsOut st; status := status st;
     trace := trace st; crashed := crashed st |}.

Definition crash (st : pass) : pass :=
  {| self := self st; units := units st; wg := wg st;
     closed := closed st; resultsOut := resultsOut st; status := status st;
     trace := trace st; crashed := true |}.

(** [close(results)], the end of the [range] loop and the return of
    [collectChecks] with its deferred [RUnlock]. *)
Definition close (st : pass) : pass :=
  {| self := RUnlock (self st); units := units st; wg := wg st;
     closed := true; resultsOut := resultsOut st; status := status st;
     trace := trace st; crashed := crashed st |}.

(** [fmt.Sprintf("checker panic recovered: %v", r)]. *)
Definition panicMessage (v : string) : string :=
  "checker panic recovered: " +:+ v.

(** [if s.errorHandler != nil { s.errorHandler(name, err) }]. *)
Definition notify (s : basicHandler) (name err : string) : list Event :=
  match errorHandler s with
  | Some h => [HandlerCalled h name err]
  | None => []
  end.

(** What the Go runtime panics with on a send to a closed channel. *)
Definition sendOnClosed : string := "send on closed channel".

(** One move of the goroutine of check [name].  A send on [results] is a
    rendezvous with the [range] loop of the caller, which is ready to
    receive until the channel is closed; a send on the closed channel
    panics. *)
Definition step_unit (name : string) (st : pass) : option pass :=
  match units st !! name with
  | None => None
  | Some (c, g) =>
    match g with
    | GCall =>
        Some match c with
             | Returns None =>
                 with_unit name c (GSend successCheckerResultString)
                   (emit [CheckCalled name] st)
             | Returns (Some err) =>
                 with_unit name c (GSend err)
                   (emit (CheckCalled name :: notify (self st) name err) st)
             | Panics v =>
                 with_unit name c (GDefer (Some v))
                   (emit [CheckCalled name] st)
             end
    | GSend val =>
        Some (if closed st
              then with_unit name c (GDefer (Some sendOnClosed)) st
              else with_unit name c (GDefer None) (deliver name val st))
    | GDefer r =>
        Some match wg st with
             | O => crash (with_unit name c GDead st)
             | S n =>
                 with_unit name c
                   match r with None => GExit | Some v => GPanicSend v end
                   (set_wg n st)
             end
    | GPanicSend v =>
        Some (if closed st
              then crash (with_unit name c GDead st)
              else with_unit name c (GPanicReport v)
                     (deliver name (panicMessage v) st))
    | GPanicReport v =>
        Some (with_unit name c GExit
                (emit (notify (self st) name (panicMessage v)) st))
    | GExit | GDead => None
    end
  end.

Inductive label :=
  | Go (name : string)   (* the goroutine of this check moves *)
  | Closer.              (* [wg.Wait()] returns and [close(results)] runs *)

Definition step (l : label) (st : pass) : option pass :=
  if crashed st then None
  else match l with
       | Go name => step_unit name st
       | Closer =>
           if closed st then None
           else match wg st with O => Some (close st) | S _ => None end
       end.

Fixpoint run (sched : list label) (st : pass) : option pass :=
  match sched with
  | [] => Some st
  | l :: sched' =>
      match step l st with
      | Some st' => run sched' st'
      | None => None
      end
  end.

(** The state in which [collectChecks] has taken the read lock and started
    its goroutines, or the state of its early return when
    [len(checks) == 0]. *)
Definition start (s : basicHandler) (checks : gmap string Check)
    (out : gmap string string) (tr : list Event) : pass :=
  if decide (size checks = 0)
  then {| self := RUnlock (RLock s); units := ∅; wg := 0; closed := true;
          resultsOut := out; status := StatusOK; trace := tr;
          crashed := false |}
  else {| self := RLock s; units := (λ c, (c, GCall)) <$> checks;
          wg := size checks; closed := false;
          resultsOut := out; status := StatusOK; trace := tr;
          crashed := false |}.

(** Every goroutine of the pass has returned. *)
Definition exited (st : pass) : bool :=
  bool_decide (map_Forall (λ _ u, u.2 = GExit) (units st)).

(** The pass is over: [collectChecks] has returned and its goroutines are
    gone, or the process is dead. *)
Definition finished (st : pass) : bool :=
  crashed st || (closed st && exited st).

(** [s.collectChecks(checks, resultsOut)] under a schedule: the state in
    which the pass is over, with the [status] returned and the
    [resultsOut] written; [None] when the schedule names a move that
    cannot be made, or stops before the pass is over.  The source
    function returns to [handle] as soon as the channel is closed, which
    is the first state of the run with [closed] set; a goroutine that
    recovered a panic may still be running then, and the state here is
    the one in which it is gone too.  For a mapping without a check that
    panics the two states are one. *)
Definition collectChecks (s : basicHandler) (checks : gmap string Check)
    (out : gmap string string) (tr : list Event)
    (sched : list label) : option pass :=
  match run sched (start s checks out tr) with
  | Some st => if finished st then Some st else None
  | None => None
  end.

(** ** Sums over the goroutines of a pass *)

Definition total (w : Check * gstate → nat)
    (m : gmap string (Check * gstate)) : nat :=
  map_fold (λ _ u n, w u + n) 0 m.

(** ** What a check contributes to a pass *)

(** The string its goroutine sends on [results]. *)
Definition outcome (c : Check) : string :=
  match c with
  | Returns None => successCheckerResultString
  | Returns (Some err) => err
  | Panics v => panicMessage v
  end.

(** The check failed: it returned an error or panicked. *)
Definition failed (c : Check) : Prop :=
  c ≠ Returns None.

#[global] Instance failed_dec c : Decision (failed c).
Proof. unfold failed. apply _. Defined.

(** The error value passed to the callback for a check that failed. *)
Definition reported (c : Check) : option string :=
  match c with
  | Returns None => None
  | Returns (Some err) => Some err
  | Panics v => Some (panicMessage v)
  end.

(** ** Bookkeeping of the proofs *)

(** Goroutines that have not yet run [wg.Done()]. *)
Definition pending (u : Check * gstate) : nat :=
  match u.2 with GCall | GSend _ | GDefer _ => 1 | _ => 0 end.

(** Goroutines whose value the [range] loop has received. *)
Definition delivered (g : gstate) : bool :=
  match g with GDefer None | GPanicReport _ | GExit => true | _ => false end.

(** Received values that differ from the success string. *)
Definition alarming (u : Check * gstate) : nat :=
  if delivered u.2
  then if decide (outcome u.1 = successCheckerResultString) then 0 else 1
  else 0.

(** Moves a goroutine has left, at most. *)
Definition rank (u : Check * gstate) : nat :=
  match u.2 with
  | GCall => 5 | GSend _ => 4 | GDefer _ => 3 | GPanicSend _ => 2
  | GPanicReport _ => 1 | GExit | GDead => 0
  end.

Definition measure (st : pass) : nat :=
  total rank (units st) + (if closed st then 0 else 1).

(** The program points a goroutine can be at, given what its check does. *)
Definition unit_ok (u : Check * gstate) : Prop :=
  match u.2 with
  | GCall | GExit => True
  | GSend val => (∃ err, u.1 = Returns err) ∧ val = outcome u.1
  | GDefer None => ∃ err, u.1 = Returns err
  | GDefer (Some v) | GPanicSend v | GPanicReport v => u.1 = Panics v
  | GDead => ∃ v, u.1 = Panics v
  end.

Definition event_name (ev : Event) : string :=
  match ev with
  | CheckCalled name => name
  | HandlerCalled _ name _ => name
  end.

(** The events of a trace that concern one check name. *)
Definition about (name : string) (tr : list Event) : list Event :=
  filter (λ ev, event_name ev = name) tr.

(** The events a goroutine has emitted when it is at a program point. *)
Definition emitted (s : basicHandler) (name : string)
    (u : Check * gstate) : list Event :=
  match u.2 with
  | GCall => []
  | GSend _ | GDefer None =>
      CheckCalled name ::
        match u.1 with Returns (Some err) => notify s name err | _ => [] end
  | GDefer (Some _) | GPanicSend _ | GPanicReport _ | GDead =>
      [CheckCalled name]
  | GExit =>
      CheckCalled name ::
        match reported u.1 with Some err => notify s name err | None => [] end
  end.

(** The events of a check that has run to its end: the call, and the
    callback when the check failed and a callback is registered. *)
Definition ran (s : basicHandler) (name : string)
    (oc : option Check) : list Event :=
  match oc with
  | Some c => emitted s name (c, GExit)
  | None => []
  end.

(** ** What the properties are stated with *)

(** A mapping holds a check whose goroutine sends something else than the
    success string. *)
Definition unhealthy (m : gmap string Check) : Prop :=
  map_Exists (λ _ c, outcome c ≠ successCheckerResultString) m.

#[global] Instance unhealthy_dec m : Decision (unhealthy m).
Proof. unfold unhealthy. apply _. Defined.

(** The call of the check returns, with nil or with an error. *)
Definition returns (c : Check) : bool :=
  match c with Returns _ => true | Panics _ => false end.

(** The result mapping after passes over [checks], in this order, that
    started from [out]. *)
Definition merged (checks : list (gmap string Check))
    (out : gmap string string) : gmap string string :=
  foldl (λ acc m, (outcome <$> m) ∪ acc) out checks.

(** The check registered under a name in the last mapping that has one. *)
Fixpoint latest (checks : list (gmap string Check))
    (name : string) : option Check :=
  match checks with
  | [] => None
  | m :: checks' =>
      match latest checks' name with
      | Some c => Some c
      | None => m !! name
      end
  end.

(** The callback calls of a trace for one check name, in order. *)
Definition callbacks (name : string)
    (tr : list Event) : list (ErrorHandler * string) :=
  omap (λ ev, match ev with
              | HandlerCalled h n err =>
                  if decide (n = name) then Some (h, err) else None
              | CheckCalled _ => None
              end) tr.

(** How often the check registered under a name was called. *)
Definition calls (name : string) (tr : list Event) : nat :=
  length (filter (λ ev, ev = CheckCalled name) tr).

(** One call when the mapping has a check under the name, none
    otherwise. *)
Definition registered (m : gmap string Check) (name : string) : nat :=
  match m !! name with Some _ => 1 | None => 0 end.

(** The callback calls one mapping owes for a name: one, with the error of
    the check, when a callback is registered and the check registered
    under the name failed. *)
Definition reports (s : basicHandler) (name : string)
    (m : gmap string Check) : list (ErrorHandler * string) :=
  match errorHandler s, m !! name with
  | Some h, Some c =>
      match reported c with Some err => [(h, err)] | None => [] end
  | _, _ => []
  end.

(** ** The invariant of a pass *)

(** What holds in every state reached by a pass of [collectChecks] over
    [checks], called on the handler [s] with the result mapping [out0] and
    the trace [tr0]. *)
Record inv (s : basicHandler) (checks : gmap string Check)
    (out0 : gmap string string) (tr0 : list Event) (st : pass) : Prop := {
  inv_self : self st = if closed st then s else RLock s;
  inv_units : ∀ name, fst <$> units st !! name = checks !! name;
  inv_ok : ∀ name u, units st !! name = Some u → unit_ok u;
  inv_wg : wg st = total pending (units st);
  inv_closed : closed st = true → wg st = 0;
  inv_out : ∀ name,
    resultsOut st !! name =
      match units st !! name with
      | Some u => if delivered u.2 then Some (outcome u.1) else out0 !! name
      | None => out0 !! name
      end;
  inv_status :
    status st = if decide (total alarming (units st) = 0)
                then StatusOK else StatusServiceUnavailable;
  inv_trace : ∀ name,
    about name (trace st) =
      about name tr0 ++
      match units st !! name with
      | Some u => emitted s name u
      | None => []
      end;
  inv_crashed :
    crashed st = true ↔ ∃ name c, units st !! name = Some (c, GDead)
}.

(** ** Requests and responses ([net/http], as far as [handle] uses it) *)

(** [r.Method] and [r.URL.Query()], the query as [net/url] has parsed it
    into [url.Values]. *)
Record Request := {
  Method : string;
  Query : gmap string (list string)
}.

(** [url.Values.Get]: the first value of the key, or the empty string. *)
Definition Get (q : gmap string (list string)) (key : string) : string :=
  match q !! key with
  | Some (v :: _) => v
  | _ => ""
  end.

(** What is written to the body: bytes, or the output of a
    [json.Encoder] with [SetIndent("", "    ")] for a [map[string]string]. *)
Inductive Chunk :=
  | Bytes (b : string)
  | IndentedJSON (m : gmap string string).

(** An [http.ResponseWriter]: the header map of the response, the status
    code once the header is written, and the body so far. *)
Record ResponseWriter := {
  Header : gmap string string;
  Code : option Z;
  Body : list Chunk
}.

(** The writer the server hands to a handler, with the headers set before
    the handler runs. *)
Definition freshWriter (h0 : gmap string string) : ResponseWriter :=
  {| Header := h0; Code := None; Body := [] |}.

(** [w.Header().Set(k, v)]; it no longer changes the response once the
    header is written. *)
Definition HeaderSet (k v : string) (w : ResponseWriter) : ResponseWriter :=
  match Code w with
  | Some _ => w
  | None => {| Header := <[k := v]> (Header w); Code := None; Body := Body w |}
  end.

(** [w.WriteHeader(code)]; a second call is ignored. *)
Definition WriteHeader (code : Z) (w : ResponseWriter) : ResponseWriter :=
  match Code w with
  | Some _ => w
  | None => {| Header := Header w; Code := Some code; Body := Body w |}
  end.

(** [w.Write(b)]; it writes the header with 200 if none was written. *)
Definition Write (b : Chunk) (w : ResponseWriter) : ResponseWriter :=
  {| Header := Header w;
     Code := match Code w with Some c => Some c | None => Some StatusOK end;
     Body := Body w ++ [b] |}.

Definition newline : string := String (Ascii.ascii_of_nat 10) EmptyString.

(** [http.Error(w, error, code)] of the standard library: plain-text
    content type, [nosniff], the code, and the message on a line. *)
Definition Error (w : ResponseWriter) (error : string) (code : Z)
    : ResponseWriter :=
  Write (Bytes (error +:+ newline))
    (WriteHeader code
       (HeaderSet "X-Content-Type-Options" "nosniff"
          (HeaderSet "Content-Type" "text/plain; charset=utf-8" w))).

(** ** [handle] and the two endpoints *)

(** What the loop over the check mappings ends with: the handler, the
    accumulated [checkResults], [status] and trace, or the death of the
    process. *)
Inductive Collected :=
  | Done (s : basicHandler) (checkResults : gmap string string)
      (code : Z) (tr : list Event)
  | Died (tr : list Event).

(** [for _, m := range checks { if s := s.collectChecks(m, checkResults);
    s != http.StatusOK { status = s } }].  Each mapping is one pass, run
    under its own schedule from [scheds].  When a goroutine of a pass has
    killed the process the loop is over, whether or not an answer still
    went out: [Died] does not keep the status and the result mapping the
    pass had returned before the goroutine died. *)
Fixpoint collectLoop (checks : list (gmap string Check))
    (scheds : list (list label)) (s : basicHandler)
    (checkResults : gmap string string) (code : Z) (tr : list Event)
    : option Collected :=
  match checks with
  | [] => Some (Done s checkResults code tr)
  | m :: checks' =>
      match collectChecks s m checkResults tr (hd [] scheds) with
      | None => None
      | Some st =>
          if crashed st then Some (Died (trace st))
          else collectLoop checks' (tl scheds) (self st) (resultsOut st)
                 (if decide (status st = StatusOK) then code else status st)
                 (trace st)
      end
  end.

(** What a request ends with: the response, with the handler and the trace
    of the checks and callbacks that ran, or the death of the process.
    [Crashed] stands for every run in which a goroutine of the request
    kills the process, also for one in which [handle] had answered from
    what [collectChecks] returned before the goroutine died. *)
Inductive Outcome :=
  | Responded (s : basicHandler) (w : ResponseWriter) (tr : list Event)
  | Crashed (tr : list Event).

Definition emptyObject : string := "{}" +:+ newline.

Definition handle (s : basicHandler) (w : ResponseWriter) (r : Request)
    (checks : list (gmap string Check)) (scheds : list (list label))
    : option Outcome :=
  if decide (Method r = MethodGet)
  then match collectLoop checks scheds s ∅ StatusOK [] with
       | None => None
       | Some (Died tr) => Some (Crashed tr)
       | Some (Done s' checkResults code tr) =>
           let w :=
             WriteHeader code
               (HeaderSet "Expires" "0"
                  (HeaderSet "Pragma" "no-cache"
                     (HeaderSet "Cache-Control"
                        "no-cache, no-store, must-revalidate"
                        (HeaderSet "Content-Type"
                           "application/json; charset=utf-8" w)))) in
           Some (Responded s'
                   (if decide (Get (Query r) "full" = "1")
                    then Write (IndentedJSON checkResults) w
                    else Write (Bytes emptyObject) w)
                   tr)
       end
  else Some (Responded s
               (Error w "method not allowed" StatusMethodNotAllowed) []).

Definition LiveEndpoint (s : basicHandler) (w : ResponseWriter)
    (r : Request) (scheds : list (list label)) : option Outcome :=
  handle s w r [livenessChecks s] scheds.

Definition ReadyEndpoint (s : basicHandler) (w : ResponseWriter)
    (r : Request) (scheds : list (list label)) : option Outcome :=
  handle s w r [readinessChecks s; livenessChecks s] scheds.

(** ** The database probe (package [db]) *)

(** A [*sql.DB], as far as the probe uses it: what [PingContext] does under
    a context with the given timeout (a [time.Duration], in nanoseconds). *)
Record DB := {
  PingContext : Z → Check
}.

(** The check [DatabasePingCheck(database, timeout)] returns.  Creating the
    context from [context.Background()] and the deferred [cancel()] neither
    fail nor panic, for any timeout. *)
Definition DatabasePingCheck (database : option DB) (timeout : Z) : Check :=
  match database with
  | None => Returns (Some "database is nil")
  | Some db => PingContext db timeout
  end.

(** ** The probes of packages [misc], [kafka] and [db] *)

(** What a probe does to the outside, in order. *)
Inductive ProbeEvent :=
  | Dialed (addr : string)
  | ConnClosed (addr : string)
  | Requested (url : string)
  | BodyClosed (url : string)
  | Queried (query : string)
  | RowScanned
  | RowsClosed.

(** [net.DialTimeout("tcp", addr, timeout)]: an error, or a connection
    with what its [Close()] returns. *)
Inductive DialResult :=
  | DialError (err : string)
  | Connected (closeErr : option string).

#[global] Instance DialResult_eq_dec : EqDecision DialResult.
Proof. solve_decision. Defined.

(** The network as the probes see it during one call:
    [resolver.LookupHost(ctx, host)] under a timeout, giving addresses and
    an error; a dial; and [client.Get(url)] of a client that does not
    follow redirects, giving an error or the status code of the
    response. *)
Record Network := {
  LookupHost : string → Z → list string * option string;
  DialTimeout : string → Z → DialResult;
  ClientGet : string → Z → string + Z
}.

Definition DNSResolveSuffix : string := "_dns_resolve".
Definition TCPDialSuffix : string := "_tcp_dial".
Definition HTTPGetSuffix : string := "_http_get".
Definition GoroutinesCount : string := "goroutines_threshold".
Definition CheckerName : string := "kafka".

(** The error a call of the check of [DNSResolveCheck(host, timeout)]
    returns. *)
Definition DNSResolveCheck_run (net : Network) (host : string)
    (timeout : Z) : option string :=
  let '(addrs, err) := LookupHost net host timeout in
  match err with
  | Some e => Some e
  | None =>
      if decide (length addrs < 1) then Some "could not resolve host"
      else None
  end.

Definition DNSResolveCheck (net : Network) (host : string)
    (timeout : Z) : Check :=
  Returns (DNSResolveCheck_run net host timeout).

(** The error a call of the check of [TCPDialCheck(addr, timeout)] returns,
    and what the call did. *)
Definition TCPDialCheck_run (net : Network) (addr : string)
    (timeout : Z) : option string * list ProbeEvent :=
  match DialTimeout net addr timeout with
  | DialError e => (Some e, [Dialed addr])
  | Connected closeErr => (closeErr, [Dialed addr; ConnClosed addr])
  end.

Definition TCPDialCheck (net : Network) (addr : string)
    (timeout : Z) : Check :=
  Returns (TCPDialCheck_run net addr timeout).1.

(** The same for [HTTPGetCheck(url, timeout)]; [%d] prints the status code
    in decimal. *)
Definition HTTPGetCheck_run (net : Network) (url : string)
    (timeout : Z) : option string * list ProbeEvent :=
  match ClientGet net url timeout with
  | inl e => (Some e, [Requested url])
  | inr code =>
      (if decide (code = 200%Z) then None
       else Some ("returned status " +:+ pretty code),
       [Requested url; BodyClosed url])
  end.

Definition HTTPGetCheck (net : Network) (url : string)
    (timeout : Z) : Check :=
  Returns (HTTPGetCheck_run net url timeout).1.

(** The check of [GoroutineCountCheck(threshold)], called while
    [runtime.NumGoroutine()] is [count]. *)
Definition GoroutineCountCheck (count threshold : Z) : Check :=
  if decide (count > threshold)%Z
  then Returns (Some ("too many goroutines (" +:+ pretty count +:+ " > "
                      +:+ pretty threshold +:+ ")"))
  else Returns None.

(** The loop of the kafka [DialCheck] over the endpoints left, with the
    [errorsList] so far: [None] when it returns nil from inside the loop,
    the final [errorsList] when it falls off the end. *)
Fixpoint dialEach (net : Network) (timeout : Z) (endpoints : list string)
    (errorsList : list string)
    : option (list string) * list ProbeEvent :=
  match endpoints with
  | [] => (Some errorsList, [])
  | ep :: endpoints' =>
      match DialTimeout net ep timeout with
      | DialError e =>
          let '(res, evs) :=
            dialEach net timeout endpoints' (errorsList ++ [e]) in
          (res, Dialed ep :: evs)
      | Connected (Some e) =>
          let '(res, evs) :=
            dialEach net timeout endpoints' (errorsList ++ [e]) in
          (res, Dialed ep :: ConnClosed ep :: evs)
      | Connected None => (None, [Dialed ep; ConnClosed ep])
      end
  end.

(** [fmt.Errorf("%s", errorsList)]: the messages between brackets,
    separated by blanks. *)
Definition formatErrors (errorsList : list string) : string :=
  "[" +:+ String.concat " " errorsList +:+ "]".

(** The error a call of the check of the kafka
    [DialCheck(endpoints, timeout)] returns, and what the call did. *)
Definition DialCheck_run (net : Network) (endpoints : list string)
    (timeout : Z) : option string * list ProbeEvent :=
  if decide (length endpoints = 0) then (Some "empty kafka endpoints", [])
  else match dialEach net timeout endpoints [] with
       | (None, evs) => (None, evs)
       | (Some errorsList, evs) => (Some (formatErrors errorsList), evs)
       end.

Definition DialCheck (net : Network) (endpoints : list string)
    (timeout : Z) : Check :=
  Returns (DialCheck_run net endpoints timeout).1.

(** The rows of a query, as far as [DoSimpleSelect] sees them: what
    [rows.Scan] returns for each row [rows.Next()] yields, and what
    [rows.Err()] returns after the last one. *)
Record Rows := {
  scans : list (option string);
  rowsErr : option string
}.

(** [for rows.Next() { err = rows.Scan(&f); if err != nil { return err } }]:
    the error of the first scan that fails, and the rows scanned. *)
Fixpoint scanRows (scans : list (option string))
    : option string * list ProbeEvent :=
  match scans with
  | [] => (None, [])
  | Some e :: _ => (Some e, [RowScanned])
  | None :: scans' =>
      let '(err, evs) := scanRows scans' in (err, RowScanned :: evs)
  end.

Definition simpleSelect : string := "SELECT 1 as healthcheck;".

(** [DoSimpleSelect(ctx, db)] on a database that is not nil, whose
    [QueryContext] is given: the error returned and what the call did,
    the deferred [rows.Close()] last. *)
Definition DoSimpleSelect (QueryContext : string → string + Rows)
    : option string * list ProbeEvent :=
  match QueryContext simpleSelect with
  | inl err => (Some err, [Queried simpleSelect])
  | inr rows =>
      let '(err, evs) := scanRows (scans rows) in
      (match err with Some e => Some e | None => rowsErr rows end,
       Queried simpleSelect :: evs ++ [RowsClosed])
  end.

(** The addresses dialled and the connections closed, in order. *)
Definition dialled (evs : list ProbeEvent) : list string :=
  omap (λ ev, match ev with Dialed a => Some a | _ => None end) evs.

Definition connsClosed (evs : list ProbeEvent) : list string :=
  omap (λ ev, match ev with ConnClosed a => Some a | _ => None end) evs.

(** The endpoint accepts a connection and closes it without error. *)
Definition reachable (net : Network) (timeout : Z) (ep : string) : Prop :=
  DialTimeout net ep timeout = Connected None.

#[global] Instance reachable_dec net timeout ep :
  Decision (reachable net timeout ep).
Proof. unfold reachable. apply _. Defined.

(** The dial to the endpoint gives a connection. *)
Definition connects (net : Network) (timeout : Z) (ep : string) : Prop :=
  ∃ closeErr, DialTimeout net ep timeout = Connected closeErr.

#[global] Instance connects_dec net timeout ep :
  Decision (connects net timeout ep).
Proof.
  unfold connects. destruct (DialTimeout net ep timeout) as [e|ce].
  - right. by intros [? ?].
  - left. eauto.
Defined.

#[global] Instance ProbeEvent_eq_dec : EqDecision ProbeEvent.
Proof. solve_decision. Defined.

(** The rows scanned. *)
Definition rowsScanned (evs : list ProbeEvent) : nat :=
  length (filter (λ ev, ev = RowScanned) evs).

(** A probe that fails with an error message of its own making, not one
    handed up from a library: a lookup that gives neither an error nor an
    address, a response with another status than 200, too many
    goroutines, no reachable kafka endpoint, a nil database. *)
Inductive ownFailure : Check → Prop :=
  | dns_no_address net host timeout :
      LookupHost net host timeout = ([], None) →
      ownFailure (DNSResolveCheck net host timeout)
  | http_other_status net url timeout code :
      ClientGet net url timeout = inr code → code ≠ 200%Z →
      ownFailure (HTTPGetCheck net url timeout)
  | goroutines_over count threshold :
      (count > threshold)%Z →
      ownFailure (GoroutineCountCheck count threshold)
  | kafka_unreachable net endpoints timeout :
      Forall (λ ep, ¬ reachable net timeout ep) endpoints →
      ownFailure (DialCheck net endpoints timeout)
  | database_nil timeout :
      ownFailure (DatabasePingCheck None timeout).

(** The error an endpoint that is not reachable adds to [errorsList]. *)
Definition endpointError (net : Network) (timeout : Z)
    (ep : string) : option string :=
  match DialTimeout net ep timeout with
  | DialError e => Some e
  | Connected closeErr => closeErr
  end.

(** A network in which [b2:9092] accepts connections, [b1:9092] accepts
    them and fails to close them, every other dial is refused, lookups
    give nothing and every request is answered with a redirect. *)
Definition testNetwork : Network :=
  {| LookupHost := λ _ _, ([], None);
     DialTimeout := λ addr _,
       if decide (addr = "b2:9092") then Connected None
       else if decide (addr = "b1:9092") then Connected (Some "close failed")
       else DialError "connection refused";
     ClientGet := λ _ _, inr 302%Z |}.

(** ** Schedules *)

(** A schedule that moves the goroutine of [name] three times: call,
    send, return. *)
Definition straight (name : string) : list label :=
  [Go name; Go name; Go name].

(** ** Executions *)

Example run_panic_good :
  let st := start NewHandler {["p" := Panics "boom"]} ∅ [] in
  (λ st', (crashed st', status st', resultsOut st' !! "p", finished st'))
    <$> run [Go "p"; Go "p"; Go "p"; Closer; Go "p"] st
  = Some (false, 503%Z, Some "checker panic recovered: boom", true).
Proof. vm_compute. reflexivity. Qed.

Example live_failing :
  let s := AddCheckErrorHandler (Callback 0)
             (AddLivenessCheck "test-liveness-check"
                (Returns (Some "failed liveness check")) NewHandler) in
  LiveEndpoint s (freshWriter ∅)
    {| Method := "GET"; Query := {["full" := ["1"]]} |}
    [[Go "test-liveness-check"; Go "test-liveness-check";
      Go "test-liveness-check"; Closer]]
  = Some (Responded s
      {| Header := {[ "Content-Type" := "application/json; charset=utf-8";
                      "Cache-Control" := "no-cache, no-store, must-revalidate";
                      "Pragma" := "no-cache"; "Expires" := "0" ]};
         Code := Some 503%Z;
         Body := [IndentedJSON
                    {["test-liveness-check" := "failed liveness check"]}] |}
      [CheckCalled "test-liveness-check";
       HandlerCalled (Callback 0) "test-liveness-check"
         "failed liveness check"]).
Proof. vm_compute. reflexivity. Qed.

(** ** Sums over goroutines *)

Section Totals.

Variable w : Check * gstate → nat.

Lemma total_empty : total w ∅ = 0.
Proof. apply map_fold_empty. Qed.

Lemma total_insert_fresh m k u :
  m !! k = None → total w (<[k := u]> m) = w u + total w m.
Proof.
  intros Hk. unfold total.
  rewrite map_fold_insert_L; [done | intros; lia | done].
Qed.

Lemma total_update m k u u' :
  m !! k = Some u → total w (<[k := u']> m) + w u = total w m + w u'.
Proof.
  intros Hk.
  rewrite <- (insert_delete_id m k u Hk) at 2.
  rewrite <- (insert_delete_eq m k u').
  rewrite !total_insert_fresh by apply lookup_delete_eq. lia.
Qed.

Lemma total_lookup_le m k u : m !! k = Some u → w u ≤ total w m.
Proof.
  intros Hk. rewrite <- (insert_delete_id m k u Hk).
  rewrite total_insert_fresh by apply lookup_delete_eq. lia.
Qed.

Lemma total_pos m : 0 < total w m ↔ ∃ k u, m !! k = Some u ∧ 0 < w u.
Proof.
  induction m as [|k u m Hk _ IH] using map_first_key_ind.
  - rewrite total_empty. split; [lia |].
    intros (k & u & Hl & _). by rewrite lookup_empty in Hl.
  - rewrite total_insert_fresh by done. split.
    + intros Hpos. destruct (decide (0 < w u)) as [Hu|Hu].
      * exists k, u. by rewrite lookup_insert_eq.
      * destruct IH as [IH _]. destruct IH as (k' & u' & Hl & Hw); [lia |].
        exists k', u'. split; [| done].
        rewrite lookup_insert_ne; [done | congruence].
    + intros (k' & u' & Hl & Hw).
      destruct (decide (k = k')) as [->|Hne].
      * rewrite lookup_insert_eq in Hl. simplify_eq. lia.
      * rewrite lookup_insert_ne in Hl by done.
        destruct IH as [_ IH]. assert (0 < total w m) by eauto. lia.
Qed.

End Totals.

Lemma total_spawn w (checks : gmap string Check) :
  (∀ c, w (c, GCall) = 1) →
  total w ((λ c, (c, GCall)) <$> checks) = size checks.
Proof.
  intros Hw. induction checks as [|k c m Hk _ IH] using map_first_key_ind.
  - by rewrite fmap_empty, total_empty, map_size_empty.
  - rewrite fmap_insert, total_insert_fresh, map_size_insert_None, Hw, IH;
      [done | done |]. by rewrite lookup_fmap, Hk.
Qed.

Lemma RUnlock_RLock s : RUnlock (RLock s) = s.
Proof. by destruct s. Qed.

Lemma about_app name tr evs :
  about name (tr ++ evs) = about name tr ++ about name evs.
Proof. apply filter_app. Qed.

Lemma about_same name evs :
  Forall (λ ev, event_name ev = name) evs → about name evs = evs.
Proof.
  induction 1 as [|ev evs Hev _ IH]; [done |].
  unfold about in *. by rewrite filter_cons_True, IH.
Qed.

Lemma about_other name name' evs :
  name ≠ name' → Forall (λ ev, event_name ev = name) evs →
  about name' evs = [].
Proof.
  intros Hne. induction 1 as [|ev evs Hev _ IH]; [done |].
  unfold about in *. rewrite filter_cons_False; [done | congruence].
Qed.

Lemma notify_names s name err :
  Forall (λ ev, event_name ev = name) (notify s name err).
Proof. unfold notify. destruct (errorHandler s); repeat constructor. Qed.

(** ** Termination *)

Lemma step_measure l st st' : step l st = Some st' → measure st' < measure st.
Proof.
  unfold step, measure. destruct (crashed st); [done |].
  destruct l as [name|].
  - unfold step_unit.
    destruct (units st !! name) as [[c g]|] eqn:Hu; [| done].
    pose proof (λ g', total_update rank _ _ _ (c, g') Hu) as Hr.
    intros Hstep.
    destruct g; simplify_eq; repeat case_match; simpl;
      match goal with
      | |- context [<[name := (?c', ?g')]> _] => specialize (Hr g')
      end;
      unfold rank in *; simpl in *; first [congruence | lia].
  - destruct (closed st); [done |]. destruct (wg st); [| done].
    intros; simplify_eq. simpl. lia.
Qed.

(** A schedule is never longer than the measure of the state it starts
    from: the moves of a pass, each call of a check taken to end, are
    finitely many. *)
Lemma run_bounded sched : ∀ st st',
  run sched st = Some st' → length sched + measure st' ≤ measure st.
Proof.
  induction sched as [|l sched IH]; intros st st' Hrun; simpl in *.
  - simplify_eq. lia.
  - destruct (step l st) as [st1|] eqn:Hstep; [| done].
    apply step_measure in Hstep. apply IH in Hrun. lia.
Qed.

(** ** The invariant is kept, and what follows from it *)

Lemma finished_exited st :
  finished st = true → crashed st = false →
  closed st = true ∧ ∀ name u, units st !! name = Some u → u.2 = GExit.
Proof.
  unfold finished, exited. intros Hf Hc. rewrite Hc in Hf. simpl in Hf.
  apply andb_true_iff in Hf as [Hcl Hex]. split; [done |].
  apply bool_decide_eq_true in Hex. intros name u Hu. by apply (Hex name).
Qed.

Ltac move_side :=
  first
    [ done
    | by (unfold unit_ok; simpl; eauto)
    | by (repeat constructor; try apply notify_names)
    | by case_decide
    | by (unfold pending; simpl; lia)
    | by (unfold emitted, reported; simpl; repeat case_match;
          simplify_eq; rewrite ?app_nil_r) ].

Section Invariant.

Variables (s : basicHandler) (checks : gmap string Check).
Variables (out0 : gmap string string) (tr0 : list Event).

(** A move of the goroutine of [name] from program point [g] to [g'] that
    emits [evs] keeps the invariant, when it does to the counter, the
    result mapping and the status what the program point says. *)
Lemma inv_move st st' name c g g' evs :
  inv s checks out0 tr0 st →
  units st !! name = Some (c, g) →
  units st' = <[name := (c, g')]> (units st) →
  self st' = self st → closed st' = closed st →
  unit_ok (c, g') →
  pending (c, g') ≤ pending (c, g) →
  wg st' + pending (c, g) = wg st + pending (c, g') →
  (if delivered g
   then delivered g' = true ∧ resultsOut st' = resultsOut st
        ∧ status st' = status st
   else if delivered g'
   then resultsOut st' = <[name := outcome c]> (resultsOut st)
        ∧ status st' = (if decide (outcome c = successCheckerResultString)
                        then status st else StatusServiceUnavailable)
   else resultsOut st' = resultsOut st ∧ status st' = status st) →
  trace st' = trace st ++ evs →
  emitted s name (c, g') = emitted s name (c, g) ++ evs →
  Forall (λ ev, event_name ev = name) evs →
  crashed st = false →
  crashed st' = (if decide (g' = GDead) then true else false) →
  inv s checks out0 tr0 st'.
Proof.
  intros [Hself Hunits Hok Hwg Hclosed Hout Hstatus Htrace Hcrashed]
    Hu Hunits' Hself' Hclosed' Hok' Hmono Hwg' Hdel Htrace' Hem Hevs Hcr Hcr'.
  pose proof (total_update pending _ _ _ (c, g') Hu) as Hp.
  pose proof (total_update alarming _ _ _ (c, g') Hu) as Ha.
  pose proof (total_lookup_le pending _ _ _ Hu) as Hle.
  split.
  - by rewrite Hself', Hclosed'.
  - intros name'. rewrite Hunits'. destruct (decide (name = name')) as [<-|Hne].
    + rewrite lookup_insert_eq. rewrite <- Hunits, Hu. done.
    + by rewrite lookup_insert_ne.
  - intros name' u. rewrite Hunits'.
    destruct (decide (name = name')) as [<-|Hne].
    + rewrite lookup_insert_eq. by intros [= <-].
    + rewrite lookup_insert_ne by done. apply Hok.
  - rewrite Hunits'. lia.
  - rewrite Hclosed'. intros Hc. specialize (Hclosed Hc). lia.
  - intros name'. rewrite Hunits'.
    destruct (decide (name = name')) as [<-|Hne].
    + rewrite lookup_insert_eq. simpl. specialize (Hout name).
      rewrite Hu in Hout. simpl in Hout.
      destruct (delivered g), (delivered g'); simpl in *.
      * destruct Hdel as (_ & -> & _). done.
      * destruct Hdel as (? & _); done.
      * destruct Hdel as (-> & _). by rewrite lookup_insert_eq.
      * destruct Hdel as (-> & _). done.
    + rewrite lookup_insert_ne by done. rewrite <- Hout.
      destruct (delivered g), (delivered g'); simpl in *;
        destruct Hdel as (? & ?); try destruct H0; try congruence.
      rewrite H. by rewrite lookup_insert_ne.
  - rewrite Hunits'. rewrite Hstatus in Hdel.
    set (A := total alarming (units st)) in *.
    set (A' := total alarming (<[name:=(c, g')]> (units st))) in *.
    unfold alarming in Ha. simpl in Ha. clearbody A A'.
    destruct (delivered g), (delivered g'); simpl in *.
    + destruct Hdel as (_ & _ & ->).
      repeat case_decide; try done; lia.
    + destruct Hdel as (? & _); done.
    + destruct Hdel as (_ & ->).
      repeat case_decide; try done; lia.
    + destruct Hdel as (_ & ->).
      repeat case_decide; try done; lia.
  - intros name'. rewrite Htrace', about_app, Htrace, Hunits'.
    destruct (decide (name = name')) as [<-|Hne].
    + rewrite lookup_insert_eq, Hu, Hem, (about_same name evs Hevs).
      by rewrite app_assoc.
    + rewrite lookup_insert_ne, (about_other name name' evs Hne Hevs) by done.
      by rewrite app_nil_r.
  - rewrite Hcr', Hunits'. split.
    + case_decide as Hg; [| done]. intros _. subst g'. exists name, c.
      by rewrite lookup_insert_eq.
    + intros (name' & c' & Hl). destruct (decide (name = name')) as [<-|Hne].
      * rewrite lookup_insert_eq in Hl. simplify_eq. by rewrite decide_True.
      * rewrite lookup_insert_ne in Hl by done.
        destruct Hcrashed as [_ Hd]. rewrite Hd in Hcr; [done | eauto].
Qed.

Lemma inv_notify st name err :
  inv s checks out0 tr0 st → notify (self st) name err = notify s name err.
Proof.
  intros [Hself _ _ _ _ _ _ _ _]. unfold notify. rewrite Hself.
  by destruct (closed st).
Qed.

Lemma inv_step l st st' :
  inv s checks out0 tr0 st → step l st = Some st' →
  inv s checks out0 tr0 st'.
Proof.
  intros Hinv Hstep.
  unfold step in Hstep. destruct (crashed st) eqn:Hcr; [done |].
  destruct l as [name|].
  - unfold step_unit in Hstep.
    destruct (units st !! name) as [[c g]|] eqn:Hu; [| done].
    pose proof (inv_ok _ _ _ _ _ Hinv _ _ Hu) as Hokn.
    pose proof (total_lookup_le pending _ _ _ Hu) as Hle.
    rewrite <- (inv_wg _ _ _ _ _ Hinv) in Hle.
    pose proof (inv_closed _ _ _ _ _ Hinv) as Hcl.
    assert (Hnot : ∀ err, notify (self st) name err = notify s name err)
      by (intros; by eapply inv_notify).
    unfold unit_ok in Hokn. unfold pending in Hle. simpl in Hokn, Hle.
    destruct g as [|val|r|v|v| |]; simplify_eq.
    + destruct c as [[err|]|v].
      * eapply (inv_move st _ name _ GCall (GSend err)
                  (CheckCalled name :: notify s name err)); eauto;
          simpl; rewrite ?Hcr, ?Hnot; move_side.
      * eapply (inv_move st _ name _ GCall
                  (GSend successCheckerResultString) [CheckCalled name]);
          eauto; simpl; rewrite ?Hcr; move_side.
      * eapply (inv_move st _ name _ GCall (GDefer (Some v))
                  [CheckCalled name]);
          eauto; simpl; rewrite ?Hcr; move_side.
    + destruct Hokn as [[err ->] ->].
      destruct (closed st) eqn:Hc; [specialize (Hcl eq_refl); lia |].
      eapply (inv_move st _ name _ (GSend _) (GDefer None) []);
        eauto; simpl; rewrite ?Hcr, ?Hc, ?app_nil_r; move_side.
    + destruct (wg st) as [|n] eqn:Hn; [lia |].
      destruct r as [v|].
      * eapply (inv_move st _ name _ (GDefer _) (GPanicSend v) []);
          eauto; simpl; rewrite ?Hcr, ?app_nil_r; move_side.
      * destruct Hokn as [err ->].
        eapply (inv_move st _ name _ (GDefer _) GExit []);
          eauto; simpl; rewrite ?Hcr, ?app_nil_r; move_side.
    + destruct (closed st) eqn:Hc.
      * eapply (inv_move st _ name _ (GPanicSend _) GDead []);
          eauto; simpl; rewrite ?Hc, ?app_nil_r; move_side.
      * eapply (inv_move st _ name _ (GPanicSend _)
                   (GPanicReport v) []);
          eauto; simpl; rewrite ?Hcr, ?Hc, ?app_nil_r; move_side.
    + eapply (inv_move st _ name _ (GPanicReport _) GExit
                (notify s name (panicMessage v)));
        eauto; simpl; rewrite ?Hcr, ?Hnot; move_side.
  - destruct (closed st) eqn:Hc; [done |].
    destruct (wg st) eqn:Hn; [| done]. simplify_eq.
    destruct Hinv as [Hself Hunits Hok Hwg Hclosed Hout Hstatus Htrace Hcrd].
    split; simpl; try done.
    rewrite Hself, Hc. apply RUnlock_RLock.
Qed.

Lemma inv_run sched : ∀ st st',
  inv s checks out0 tr0 st → run sched st = Some st' →
  inv s checks out0 tr0 st'.
Proof.
  induction sched as [|l sched IH]; intros st st' Hinv Hrun; simpl in Hrun.
  - by simplify_eq.
  - destruct (step l st) as [st1|] eqn:Hstep; [| done].
    eapply IH; [| done]. by eapply inv_step.
Qed.

Lemma inv_start : inv s checks out0 tr0 (start s checks out0 tr0).
Proof.
  unfold start. destruct (decide (size checks = 0)) as [He|Hne].
  - apply map_size_empty_inv in He. subst checks.
    split; simpl; try done.
    + apply RUnlock_RLock.
    + intros name. by rewrite lookup_empty, app_nil_r.
    + split; [done |]. intros (name & c & Hl). by rewrite lookup_empty in Hl.
  - split; simpl; try done.
    + intros name. rewrite lookup_fmap. destruct (checks !! name); by simpl.
    + intros name u. rewrite lookup_fmap.
      destruct (checks !! name); simpl; intros; by simplify_eq.
    + by rewrite total_spawn.
    + intros name. rewrite lookup_fmap. destruct (checks !! name); by simpl.
    + assert (total alarming ((λ c, (c, GCall)) <$> checks) = 0) as ->;
        [| done].
      destruct (total alarming ((λ c, (c, GCall)) <$> checks)) eqn:Ht;
        [done |].
      assert (0 < total alarming ((λ c, (c, GCall)) <$> checks)) as Hpos
        by lia.
      apply total_pos in Hpos as (k & u & Hl & Hw).
      rewrite lookup_fmap in Hl. destruct (checks !! k); simpl in Hl; simplify_eq.
      unfold alarming in Hw. simpl in Hw. lia.
    + intros name. rewrite lookup_fmap.
      destruct (checks !! name); simpl; by rewrite app_nil_r.
    + split; [done |]. intros (name & c & Hl). rewrite lookup_fmap in Hl.
      destruct (checks !! name); simpl in Hl; by simplify_eq.
Qed.

Lemma collectChecks_inv sched st :
  collectChecks s checks out0 tr0 sched = Some st →
  inv s checks out0 tr0 st ∧ finished st = true.
Proof.
  unfold collectChecks.
  destruct (run sched (start s checks out0 tr0)) as [st'|] eqn:Hrun; [| done].
  destruct (finished st') eqn:Hf; [| done]. intros [= <-]. split; [| done].
  eapply inv_run; [apply inv_start | done].
Qed.

(** *** The end of a pass *)

Lemma inv_unit_exited st name :
  inv s checks out0 tr0 st →
  (∀ name u, units st !! name = Some u → u.2 = GExit) →
  units st !! name = (λ c, (c, GExit)) <$> checks !! name.
Proof.
  intros Hinv Hex. rewrite <- (inv_units _ _ _ _ _ Hinv name).
  destruct (units st !! name) as [[c g]|] eqn:Hu; [| done].
  specialize (Hex _ _ Hu). simpl in *. by subst.
Qed.

(** When a pass is over and the process lives, the handler is as it was,
    every check has its entry in the result mapping, the status is 503
    exactly when one of the strings sent is not the success string, and
    every check has run once and reported its error once. *)
Lemma pass_final st :
  inv s checks out0 tr0 st → finished st = true → crashed st = false →
  self st = s
  ∧ resultsOut st = (outcome <$> checks) ∪ out0
  ∧ status st =
      (if decide (∃ name c, checks !! name = Some c
                            ∧ outcome c ≠ successCheckerResultString)
       then StatusServiceUnavailable else StatusOK)
  ∧ ∀ name, about name (trace st) = about name tr0 ++ ran s name (checks !! name).
Proof.
  intros Hinv Hf Hc. destruct (finished_exited _ Hf Hc) as [Hcl Hex].
  pose proof (λ name, inv_unit_exited _ name Hinv Hex) as Hu.
  split; [| split; [| split]].
  - by rewrite (inv_self _ _ _ _ _ Hinv), Hcl.
  - apply map_eq. intros name.
    rewrite (inv_out _ _ _ _ _ Hinv), Hu, lookup_union, lookup_fmap.
    destruct (checks !! name), (out0 !! name); done.
  - rewrite (inv_status _ _ _ _ _ Hinv).
    destruct (decide (total alarming (units st) = 0)) as [Hz|Hnz].
    + rewrite decide_False; [done |]. intros (name & c & Hl & Hne).
      assert (0 < total alarming (units st)); [| lia].
      apply total_pos. exists name, (c, GExit). split.
      * by rewrite Hu, Hl.
      * unfold alarming. simpl. rewrite decide_False by done. lia.
    + rewrite decide_True; [done |].
      assert (0 < total alarming (units st)) as Hpos by lia.
      apply total_pos in Hpos as (name & [c g] & Hl & Hw).
      rewrite Hu in Hl. exists name, c.
      destruct (checks !! name); simpl in Hl; simplify_eq.
      split; [done |]. unfold alarming in Hw. simpl in Hw.
      case_decide; [lia | done].
  - intros name. rewrite (inv_trace _ _ _ _ _ Hinv), Hu.
    by destruct (checks !! name).
Qed.

(** *** No deadlock *)

(** A goroutine that has not returned can move; its move leaves the
    channel as it is, and does not crash while the channel is open. *)
Lemma unit_moves st name u :
  inv s checks out0 tr0 st → crashed st = false →
  units st !! name = Some u → u.2 ≠ GExit →
  ∃ st', step (Go name) st = Some st' ∧ closed st' = closed st
         ∧ (closed st = false → crashed st' = false).
Proof.
  intros Hinv Hcr Hu Hne. destruct u as [c g]. simpl in Hne.
  pose proof (total_lookup_le pending _ _ _ Hu) as Hle.
  rewrite <- (inv_wg _ _ _ _ _ Hinv) in Hle. unfold pending in Hle.
  simpl in Hle.
  unfold step, step_unit. rewrite Hcr, Hu.
  destruct g; try done;
    try (eexists; split; [done |]; repeat case_match; simpl; split; done).
  - destruct (wg st); [lia |]. eexists; split; [done |]. by simpl.
  - exfalso. destruct (inv_crashed _ _ _ _ _ Hinv) as [_ Hd].
    rewrite Hd in Hcr; [done | eauto].
Qed.

(** No deadlock: a pass that is not over can make a move. *)
Lemma pass_progress st :
  inv s checks out0 tr0 st → finished st = false →
  ∃ l st', step l st = Some st'.
Proof.
  intros Hinv Hf. unfold finished in Hf.
  apply orb_false_iff in Hf as [Hcr Hf].
  destruct (exited st) eqn:Hex.
  - rewrite andb_true_r in Hf. exists Closer.
    unfold step. rewrite Hcr, Hf.
    assert (wg st = 0) as ->; [| by eexists].
    rewrite (inv_wg _ _ _ _ _ Hinv).
    destruct (total pending (units st)) eqn:Ht; [done |].
    assert (0 < total pending (units st)) as Hpos by lia.
    apply total_pos in Hpos as (name & u & Hu & Hw).
    apply bool_decide_eq_true in Hex. specialize (Hex _ _ Hu). simpl in Hex.
    unfold pending in Hw. rewrite Hex in Hw. lia.
  - apply bool_decide_eq_false in Hex.
    apply map_not_Forall in Hex; [| apply _].
    destruct Hex as (name & u & Hu & Hne).
    destruct (unit_moves _ _ _ Hinv Hcr Hu Hne) as (st' & Hs & _).
    eauto.
Qed.

(** From an open channel, moving goroutines first and the closer last ends
    the pass without a crash. *)
Lemma pass_completes : ∀ n st,
  measure st ≤ n →
  inv s checks out0 tr0 st → crashed st = false → closed st = false →
  ∃ sched st', run sched st = Some st' ∧ finished st' = true
               ∧ crashed st' = false.
Proof.
  induction n as [|n IH]; intros st Hn Hinv Hcr Hcl.
  - unfold measure in Hn. rewrite Hcl in Hn. lia.
  - destruct (exited st) eqn:Hex.
    + destruct (pass_progress _ Hinv) as (l & st' & Hstep).
      { unfold finished. by rewrite Hcr, Hcl. }
      unfold step in Hstep. rewrite Hcr in Hstep. destruct l as [name|].
      * unfold step_unit in Hstep.
        destruct (units st !! name) as [[c g]|] eqn:Hu; [| done].
        apply bool_decide_eq_true in Hex. specialize (Hex _ _ Hu).
        simpl in Hex. by subst g.
      * rewrite Hcl in Hstep. destruct (wg st) eqn:Hw; [| done].
        simplify_eq. exists [Closer], (close st). simpl.
        unfold step. rewrite Hcr, Hcl, Hw. split; [done |].
        unfold finished. simpl. unfold exited in *. simpl.
        rewrite Hex, Hcr. done.
    + apply bool_decide_eq_false in Hex.
      apply map_not_Forall in Hex; [| apply _].
      destruct Hex as (name & u & Hu & Hne).
      destruct (unit_moves _ _ _ Hinv Hcr Hu Hne)
        as (st1 & Hs & Hcl1 & Hcr1).
      destruct (IH st1) as (sched & st' & Hrun & Hfin & Hcr').
      * apply step_measure in Hs. lia.
      * by eapply inv_step.
      * by apply Hcr1.
      * by rewrite Hcl1.
      * exists (Go name :: sched), st'. simpl. by rewrite Hs.
Qed.

End Invariant.

(** ** The loop of [handle] over the check mappings *)

Lemma pass_status_unhealthy s m out0 tr0 st :
  inv s m out0 tr0 st → finished st = true → crashed st = false →
  status st = if decide (unhealthy m)
              then StatusServiceUnavailable else StatusOK.
Proof.
  intros Hinv Hf Hc.
  destruct (pass_final _ _ _ _ _ Hinv Hf Hc) as (_ & _ & Hst & _).
  rewrite Hst. unfold unhealthy, map_Exists.
  repeat case_decide; done.
Qed.

Lemma collectLoop_done checks : ∀ scheds s out code tr s' out' code' tr',
  collectLoop checks scheds s out code tr = Some (Done s' out' code' tr') →
  s' = s
  ∧ out' = merged checks out
  ∧ code' = (if decide (Exists unhealthy checks)
             then StatusServiceUnavailable else code)
  ∧ ∀ name, about name tr' =
            about name tr ++ concat ((λ m, ran s name (m !! name)) <$> checks).
Proof.
  induction checks as [|m checks IH];
    intros scheds s out code tr s' out' code' tr' Hloop; simpl in Hloop.
  - simplify_eq. split; [done |]. split; [done |]. split.
    + rewrite decide_False; [done |]. intros He. by apply Exists_nil in He.
    + intros name. simpl. by rewrite app_nil_r.
  - destruct (collectChecks s m out tr (hd [] scheds)) as [st|] eqn:Hrun;
      [| done].
    destruct (crashed st) eqn:Hc; [done |].
    apply collectChecks_inv in Hrun as [Hinv Hf].
    destruct (pass_final _ _ _ _ _ Hinv Hf Hc) as (Hs & Hout & _ & Htr).
    pose proof (pass_status_unhealthy _ _ _ _ _ Hinv Hf Hc) as Hst.
    apply IH in Hloop as (-> & -> & -> & Htr').
    rewrite Hs, Hout. split; [done |]. split; [done |]. split.
    + rewrite Hst. unfold StatusOK, StatusServiceUnavailable.
      destruct (decide (unhealthy m)) as [Hm|Hm].
      * rewrite (decide_False (P := 503%Z = 200%Z)) by done.
        rewrite (decide_True (P := Exists _ (m :: checks)));
          [| by apply Exists_cons_hd].
        by case_decide.
      * rewrite (decide_True (P := 200%Z = 200%Z)) by done.
        destruct (decide (Exists unhealthy checks)) as [He|He].
        -- rewrite decide_True; [done | by apply Exists_cons_tl].
        -- rewrite decide_False; [done |].
           rewrite Exists_cons. by intros [?|?].
    + intros name. rewrite Htr', Hs, Htr. simpl. by rewrite app_assoc.
Qed.

(** The process dies in the loop only when a check panics. *)
Lemma collectLoop_died checks : ∀ scheds s out code tr tr',
  collectLoop checks scheds s out code tr = Some (Died tr') →
  ∃ m name v, m ∈ checks ∧ m !! name = Some (Panics v).
Proof.
  induction checks as [|m checks IH];
    intros scheds s out code tr tr' Hloop; simpl in Hloop; [done |].
  destruct (collectChecks s m out tr (hd [] scheds)) as [st|] eqn:Hrun;
    [| done].
  apply collectChecks_inv in Hrun as [Hinv Hf].
  destruct (crashed st) eqn:Hc.
  - apply (inv_crashed _ _ _ _ _ Hinv) in Hc as (name & c & Hu).
    pose proof (inv_ok _ _ _ _ _ Hinv _ _ Hu) as [v Hv].
    pose proof (inv_units _ _ _ _ _ Hinv name) as Hm.
    rewrite Hu in Hm. simpl in *. subst c.
    exists m, name, v. split; [apply list_elem_of_here | done].
  - destruct (pass_final _ _ _ _ _ Hinv Hf Hc) as (Hs & _).
    apply IH in Hloop as (m' & name & v & Hin & Hl).
    exists m', name, v. split; [by apply list_elem_of_further | done].
Qed.

(** The loop can run to its end: there are schedules under which every
    pass is over without a crash. *)
Lemma collectChecks_completes s m out tr :
  ∃ sched st, collectChecks s m out tr sched = Some st ∧ crashed st = false.
Proof.
  assert (∃ sched st, run sched (start s m out tr) = Some st
                      ∧ finished st = true ∧ crashed st = false)
    as (sched & st & Hrun & Hf & Hc).
  { pose proof (inv_start s m out tr) as Hinv.
    destruct (closed (start s m out tr)) eqn:Hcl.
    - exists [], (start s m out tr). split; [done |].
      revert Hcl. unfold start, finished, exited.
      case_decide; [| done]. simpl. intros _.
      split; [| done]. apply bool_decide_eq_true.
      apply map_Forall_empty.
    - eapply pass_completes; [done | done | | done].
      unfold start. by case_decide. }
  exists sched, st. unfold collectChecks. by rewrite Hrun, Hf.
Qed.

Lemma collectLoop_completes checks : ∀ s out code tr,
  ∃ scheds s' out' code' tr',
    collectLoop checks scheds s out code tr = Some (Done s' out' code' tr').
Proof.
  induction checks as [|m checks IH]; intros s out code tr.
  - by exists [], s, out, code, tr.
  - destruct (collectChecks_completes s m out tr) as (sched & st & Hrun & Hc).
    destruct (IH (self st) (resultsOut st)
                (if decide (status st = StatusOK) then code else status st)
                (trace st)) as (scheds & s' & out' & code' & tr' & Hloop).
    exists (sched :: scheds), s', out', code', tr'. simpl.
    by rewrite Hrun, Hc.
Qed.

(** ** What [handle] answers *)

(** A GET request that is answered: the handler is as before, the four
    headers are set over those of the writer, the code is 503 when one of
    the mappings is unhealthy and 200 otherwise, and the body is the
    merged result mapping as JSON when the first value of [full] is [1],
    and [emptyObject] otherwise. *)
Lemma handle_get s h0 r checks scheds s' w' tr :
  Method r = MethodGet →
  handle s (freshWriter h0) r checks scheds = Some (Responded s' w' tr) →
  s' = s
  ∧ Header w' =
      <["Expires" := "0"]>
        (<["Pragma" := "no-cache"]>
           (<["Cache-Control" := "no-cache, no-store, must-revalidate"]>
              (<["Content-Type" := "application/json; charset=utf-8"]> h0)))
  ∧ Code w' = Some (if decide (Exists unhealthy checks)
                    then StatusServiceUnavailable else StatusOK)
  ∧ Body w' = [if decide (Get (Query r) "full" = "1")
               then IndentedJSON (merged checks ∅)
               else Bytes emptyObject]
  ∧ ∀ name, about name tr = concat ((λ m, ran s name (m !! name)) <$> checks).
Proof.
  intros Hm Hh. unfold handle in Hh. rewrite decide_True in Hh by done.
  destruct (collectLoop checks scheds s ∅ StatusOK [])
    as [[s1 out code tr1|tr1]|] eqn:Hloop; [| done | done].
  apply collectLoop_done in Hloop as (-> & -> & -> & Htr).
  simplify_eq. split; [done |]. by case_decide.
Qed.

(** A request with another method: the answer of [http.Error], and the
    handler and the trace untouched, whatever the schedules. *)
Lemma handle_other_method s w r checks scheds :
  Method r ≠ MethodGet →
  handle s w r checks scheds
  = Some (Responded s (Error w "method not allowed" StatusMethodNotAllowed) []).
Proof. intros Hm. unfold handle. by rewrite decide_False. Qed.

(** A GET request can be answered: there are schedules under which no
    goroutine dies (every call of a check ends, in the model). *)
Lemma handle_answers s w r checks :
  ∃ scheds s' w' tr, handle s w r checks scheds = Some (Responded s' w' tr).
Proof.
  destruct (decide (Method r = MethodGet)) as [Hm|Hm].
  - destruct (collectLoop_completes checks s ∅ StatusOK [])
      as (scheds & s' & out & code & tr & Hloop).
    exists scheds. unfold handle. rewrite decide_True, Hloop by done. eauto.
  - exists [], s. eexists _, _. by apply handle_other_method.
Qed.

(** The process dies while a request is handled only when a check
    panics. *)
Lemma handle_crashed s w r checks scheds tr :
  handle s w r checks scheds = Some (Crashed tr) →
  ∃ m name v, m ∈ checks ∧ m !! name = Some (Panics v).
Proof.
  unfold handle. case_decide; [| done].
  destruct (collectLoop checks scheds s ∅ StatusOK [])
    as [[s1 out code tr1|tr1]|] eqn:Hloop; [done | | done].
  intros _. by eapply collectLoop_died.
Qed.

(** ** Result mapping and callbacks of the loop *)

Lemma merged_lookup checks : ∀ out name,
  merged checks out !! name =
    match latest checks name with
    | Some c => Some (outcome c)
    | None => out !! name
    end.
Proof.
  induction checks as [|m checks IH]; intros out name; simpl; [done |].
  unfold merged in *. simpl. rewrite IH.
  destruct (latest checks name); [done |].
  rewrite lookup_union, lookup_fmap.
  destruct (m !! name), (out !! name); done.
Qed.

Lemma latest_is_Some checks name :
  is_Some (latest checks name) ↔ ∃ m, m ∈ checks ∧ is_Some (m !! name).
Proof.
  induction checks as [|m checks IH]; simpl.
  - split; [by intros [? ?] |]. intros (m & Hin & _). by apply elem_of_nil in Hin.
  - split.
    + destruct (latest checks name) as [c|] eqn:Hl.
      * intros _. destruct IH as [IH _]. destruct IH as (m' & Hin & Hs); [eauto |].
        exists m'. split; [by apply list_elem_of_further | done].
      * intros Hs. exists m. split; [apply list_elem_of_here | done].
    + intros (m' & Hin & Hs). apply elem_of_cons in Hin as [->|Hin].
      * destruct (latest checks name); [eauto | done].
      * destruct IH as [_ IH]. destruct IH as [c Hc]; [eauto |].
        rewrite Hc. eauto.
Qed.

Lemma callbacks_app name tr1 tr2 :
  callbacks name (tr1 ++ tr2) = callbacks name tr1 ++ callbacks name tr2.
Proof. apply omap_app. Qed.

Lemma callbacks_about name tr : callbacks name (about name tr) = callbacks name tr.
Proof.
  unfold callbacks, about, omap. induction tr as [|ev tr IH]; [done |].
  destruct (decide (event_name ev = name)) as [He|He].
  - rewrite filter_cons_True by done. simpl. by rewrite IH.
  - rewrite filter_cons_False by done. simpl. rewrite IH.
    destruct ev as [n|h n err]; simpl in *; [done |].
    by rewrite decide_False.
Qed.

Lemma callbacks_ran s name m :
  callbacks name (ran s name (m !! name)) = reports s name m.
Proof.
  unfold ran, reports, emitted, notify, callbacks.
  destruct (m !! name) as [c|]; simpl; [| by destruct (errorHandler s)].
  destruct (reported c), (errorHandler s); simpl; try done.
  by rewrite decide_True.
Qed.

Lemma callbacks_loop s name tr checks :
  about name tr = concat ((λ m, ran s name (m !! name)) <$> checks) →
  callbacks name tr = concat (reports s name <$> checks).
Proof.
  intros Htr. rewrite <- callbacks_about, Htr. clear Htr.
  induction checks as [|m checks IH]; [done |].
  rewrite !fmap_cons. cbn [concat].
  by rewrite callbacks_app, callbacks_ran, IH.
Qed.

Lemma calls_about name tr : calls name (about name tr) = calls name tr.
Proof.
  unfold calls, about. induction tr as [|ev tr IH]; [done |].
  destruct (decide (event_name ev = name)) as [He|He].
  - rewrite filter_cons_True by done.
    destruct (decide (ev = CheckCalled name)) as [Hc|Hc].
    + rewrite !(filter_cons_True (λ ev, ev = CheckCalled name)) by done.
      simpl. by rewrite IH.
    + rewrite !(filter_cons_False (λ ev, ev = CheckCalled name)) by done.
      done.
  - rewrite filter_cons_False by done.
    rewrite (filter_cons_False (λ ev, ev = CheckCalled name)); [done |].
    intros ->. by destruct He.
Qed.

Lemma calls_app name tr1 tr2 :
  calls name (tr1 ++ tr2) = calls name tr1 + calls name tr2.
Proof. unfold calls. by rewrite filter_app, length_app. Qed.

Lemma calls_ran s name m :
  calls name (ran s name (m !! name)) = registered m name.
Proof.
  unfold registered, ran, emitted, notify, calls.
  destruct (m !! name) as [c|]; simpl; [| done].
  rewrite filter_cons_True by done.
  destruct (reported c), (errorHandler s); simpl; try done.
Qed.

(** ** The race between [wg.Done()] and the send of a recovered panic *)

(** Whatever the name and the panic value of a check that is alone in its
    mapping: when the closer goroutine runs between the [wg.Done()] of the
    deferred function and its send, [collectChecks] returns 200 with the
    result mapping untouched, and the send kills the process. *)
Lemma panic_race s name v out tr :
  ∃ st, collectChecks s {[name := Panics v]} out tr
          [Go name; Go name; Closer; Go name] = Some st
        ∧ crashed st = true ∧ closed st = true
        ∧ status st = StatusOK ∧ resultsOut st = out.
Proof.
  unfold collectChecks, start.
  rewrite map_size_singleton, decide_False by done.
  rewrite map_fmap_singleton. cbn [run].
  unfold step at 1, step_unit at 1.
  cbn -[step finished lookup insert singletonM].
  rewrite lookup_singleton_eq.
  unfold step at 1, step_unit at 1.
  cbn -[step finished lookup insert singletonM].
  rewrite lookup_insert_eq.
  cbn -[step finished lookup insert singletonM].
  unfold step at 1.
  cbn -[step finished lookup insert singletonM].
  unfold step at 1, step_unit at 1.
  cbn -[step finished lookup insert singletonM].
  rewrite lookup_insert_eq.
  cbn -[finished lookup insert singletonM].
  eexists. split; [reflexivity |]. done.
Qed.

(** While a pass runs, the check mappings and the callback binding of the
    handler are what they were: no move writes them. *)
Lemma pass_reads_only s checks out tr sched st :
  run sched (start s checks out tr) = Some st →
  livenessChecks (self st) = livenessChecks s
  ∧ readinessChecks (self st) = readinessChecks s
  ∧ errorHandler (self st) = errorHandler s.
Proof.
  intros Hrun.
  pose proof (inv_run _ _ _ _ _ _ _ (inv_start s checks out tr) Hrun) as Hinv.
  rewrite (inv_self _ _ _ _ _ Hinv). by destruct (closed st).
Qed.

(** The status of an answer to a GET request is 503 exactly when a check
    of the evaluated mappings sent another string than the success
    string. *)
Lemma status_by_strings s h0 r checks scheds s' w' tr :
  Method r = MethodGet →
  handle s (freshWriter h0) r checks scheds = Some (Responded s' w' tr) →
  (Code w' = Some StatusServiceUnavailable
   ↔ ∃ m name c, m ∈ checks ∧ m !! name = Some c
                 ∧ outcome c ≠ successCheckerResultString)
  ∧ (Code w' = Some StatusOK ∨ Code w' = Some StatusServiceUnavailable).
Proof.
  intros Hm Hh. apply handle_get in Hh as (_ & _ & -> & _); [| done].
  destruct (decide (Exists unhealthy checks)) as [He|He].
  - split; [| by right]. split; [| done]. intros _.
    apply Exists_exists in He as (m & Hin & name & c & Hl & Hne).
    eauto 10.
  - split; [| by left]. split; [done |].
    intros (m & name & c & Hin & Hl & Hne). destruct He.
    apply Exists_exists. exists m. split; [done |].
    by exists name, c.
Qed.

(** ** Moves and schedules *)

Lemma run_app sched1 sched2 st :
  run (sched1 ++ sched2) st = run sched1 st ≫= run sched2.
Proof.
  revert st. induction sched1 as [|l sched1 IH]; intros st; simpl; [done |].
  destruct (step l st); [apply IH | done].
Qed.

(** A goroutine moves only for a name of the mapping. *)
Lemma step_Go_registered name st st' :
  step (Go name) st = Some st' → is_Some (units st !! name).
Proof.
  unfold step, step_unit. case_match; [done |].
  destruct (units st !! name); [eauto | done].
Qed.

(** Nothing moves once the process is dead. *)
Lemma crashed_is_stuck l st : crashed st = true → step l st = None.
Proof. intros Hc. unfold step. by rewrite Hc. Qed.

Lemma no_panics_by_cases (checks : list (gmap string Check)) :
  Forall (map_Forall (λ _ c, returns c = true)) checks →
  ∀ m name v, m ∈ checks → m !! name ≠ Some (Panics v).
Proof.
  intros Hall m name v Hin Hl. rewrite Forall_forall in Hall.
  by pose proof (Hall m Hin name _ Hl).
Qed.

(** ** The claims *)

(** C1 (the code breaks it).  The claim: a check that panics never takes
    the evaluation pass down; it is reported as a failure and its sibling
    checks are reported too.  The deferred function of the goroutine runs
    [wg.Done()] before it sends the recovered panic on [results], so the
    closer goroutine may close the channel in between.  Here a liveness
    check ["p"] panics beside a healthy check ["sibling"]: under this
    schedule [collectChecks] returns with status 200 and no entry for
    ["p"], the send of ["p"] then hits the closed channel, and the
    process dies. *)
Theorem C1_panic_may_end_the_process :
  let s := AddCheckErrorHandler (Callback 0)
             (AddLivenessCheck "sibling" (Returns None)
                (AddLivenessCheck "p" (Panics "boom") NewHandler)) in
  let sched := [Go "p"; Go "p"; Go "sibling"; Go "sibling"; Go "sibling";
                Closer; Go "p"] in
  (λ st, (closed st, status st, resultsOut st, crashed st))
    <$> collectChecks s (livenessChecks s) ∅ [] sched
  = Some (true, StatusOK, {["sibling" := "OK"]}, true)
  ∧ LiveEndpoint s (freshWriter ∅) {| Method := "GET"; Query := ∅ |} [sched]
    = Some (Crashed [CheckCalled "p"; CheckCalled "sibling"]).
Proof. split; vm_compute; reflexivity. Qed.

(** C2 (the code breaks it).  The claim: the status is 503 exactly when a
    check of the evaluated set fails or aborts.  The status is computed
    from the string sent on [results], so a check that returns the error
    [errors.New("OK")] is taken for a success: the callback is told of the
    failure, and the answer is 200, here under the straight schedule and
    under every other one.  And when a check aborts under the schedule of
    C1, the status [collectChecks] returns is 200 as well. *)
Theorem C2_error_named_OK_answers_200 :
  let c := Returns (Some "OK") in
  let s := AddCheckErrorHandler (Callback 0)
             (AddLivenessCheck "c" c NewHandler) in
  let r := {| Method := "GET"; Query := ∅ |} in
  failed c
  ∧ (∃ w, LiveEndpoint s (freshWriter ∅) r [straight "c" ++ [Closer]]
          = Some (Responded s w
                    [CheckCalled "c"; HandlerCalled (Callback 0) "c" "OK"])
          ∧ Code w = Some StatusOK)
  ∧ (∀ scheds s' w tr,
       LiveEndpoint s (freshWriter ∅) r scheds = Some (Responded s' w tr) →
       Code w = Some StatusOK)
  ∧ (λ st, (status st, crashed st))
      <$> collectChecks NewHandler {["p" := Panics "boom"]} ∅ []
            [Go "p"; Go "p"; Closer; Go "p"]
    = Some (StatusOK, true).
Proof.
  intros c s r. split; [done |]. split; [| split].
  - eexists. split; vm_compute; reflexivity.
  - intros scheds s' w tr Hh.
    apply handle_get in Hh as (_ & _ & -> & _); [| done].
    rewrite decide_False; [done |].
    apply (bool_decide_unpack _). vm_compute. reflexivity.
  - vm_compute. reflexivity.
Qed.

(** C3 (the code breaks it, by the defects of C2 and C1).  The claim: a
    check registered only as a liveness check and failing makes both
    [/live] and [/ready] answer 503.  [LiveEndpoint] does hand the
    liveness mapping to [handle], and [ReadyEndpoint] the readiness
    mapping and then the liveness mapping; but the status of each pass
    comes from the strings received on [results].  Here the only check of
    the handler is the liveness check ["c"], which fails with the error
    [errors.New("OK")]: each endpoint calls it, and each answers 200,
    under the straight schedule and under every other one.  And a
    liveness check that panics lets, under the schedule of C1, the pass
    that either endpoint makes over the liveness mapping return 200. *)
Theorem C3_failed_liveness_check_answers_200_on_both_endpoints :
  let c := Returns (Some "OK") in
  let s := AddLivenessCheck "c" c NewHandler in
  let r := {| Method := "GET"; Query := ∅ |} in
  failed c
  ∧ livenessChecks s !! "c" = Some c
  ∧ readinessChecks s !! "c" = None
  ∧ (∃ w, LiveEndpoint s (freshWriter ∅) r [straight "c" ++ [Closer]]
          = Some (Responded s w [CheckCalled "c"])
          ∧ Code w = Some StatusOK)
  ∧ (∃ w, ReadyEndpoint s (freshWriter ∅) r [[]; straight "c" ++ [Closer]]
          = Some (Responded s w [CheckCalled "c"])
          ∧ Code w = Some StatusOK)
  ∧ (∀ scheds s' w tr,
       LiveEndpoint s (freshWriter ∅) r scheds = Some (Responded s' w tr)
       ∨ ReadyEndpoint s (freshWriter ∅) r scheds = Some (Responded s' w tr) →
       Code w = Some StatusOK)
  ∧ (λ st, (closed st, crashed st, status st))
      <$> run [Go "p"; Go "p"; Closer]
            (start NewHandler {["p" := Panics "boom"]} ∅ [])
    = Some (true, false, StatusOK).
Proof.
  intros c s r. split; [done |]. split; [done |]. split; [done |].
  split; [| split; [| split]].
  - eexists. split; vm_compute; reflexivity.
  - eexists. split; vm_compute; reflexivity.
  - intros scheds s' w tr [Hh|Hh];
      apply handle_get in Hh as (_ & _ & -> & _); try done;
      (rewrite decide_False; [done |]);
      apply (bool_decide_unpack _); vm_compute; reflexivity.
  - vm_compute. reflexivity.
Qed.

(** C4 (the code breaks it, by the defect of C1).  The claim: the result
    mapping of a pass has an entry for every check name, none lost.
    [collectChecks] returns when the channel is closed, and the closer
    goroutine may close it between the [wg.Done()] and the send of a
    goroutine that recovered a panic.  Here the mapping has the check
    ["p"], which panics, beside the healthy check ["sibling"]: under this
    schedule [collectChecks] returns, the process alive, with status 200
    and a result mapping that has the entry of ["sibling"] and none for
    ["p"]; the one move left is the send of ["p"], which kills the
    process, and after it nothing moves: the entry is never written. *)
Theorem C4_entry_lost_when_close_overtakes_the_send :
  let checks := {["p" := Panics "boom"; "sibling" := Returns None]}
                : gmap string Check in
  let sched := [Go "p"; Go "p"; Go "sibling"; Go "sibling"; Go "sibling";
                Closer] in
  checks !! "p" = Some (Panics "boom")
  ∧ (λ st, (closed st, crashed st, status st, resultsOut st,
            resultsOut st !! "p"))
      <$> run sched (start NewHandler checks ∅ [])
    = Some (true, false, StatusOK, {["sibling" := "OK"]}, None)
  ∧ (∀ l, run (sched ++ [l]) (start NewHandler checks ∅ []) ≠ None →
          l = Go "p")
  ∧ (λ st, (crashed st, resultsOut st, resultsOut st !! "p"))
      <$> collectChecks NewHandler checks ∅ [] (sched ++ [Go "p"])
    = Some (true, {["sibling" := "OK"]}, None)
  ∧ (∀ l, run (sched ++ [Go "p"; l]) (start NewHandler checks ∅ []) = None).
Proof.
  intros checks sched.
  eassert (Hrun : run sched (start NewHandler checks ∅ []) = Some _)
    by (vm_compute; reflexivity).
  split; [reflexivity |].
  split; [vm_compute; reflexivity |]. split; [| split].
  - intros l Hl. rewrite run_app, Hrun in Hl. clear Hrun.
    cbn [mbind option_bind run] in Hl.
    match type of Hl with context [step l ?st] =>
      destruct (step l st) as [st'|] eqn:Hstep end;
      [clear Hl | by destruct Hl].
    destruct l as [name|]; [| vm_compute in Hstep; discriminate Hstep].
    pose proof (step_Go_registered _ _ _ Hstep) as Hreg.
    apply elem_of_dom in Hreg.
    match type of Hreg with _ ∈ ?X =>
      assert (HX : X = {["p"; "sibling"]}) by (vm_compute; reflexivity) end.
    rewrite HX in Hreg. clear HX.
    apply elem_of_union in Hreg as [Hn|Hn]; apply elem_of_singleton in Hn;
      subst name; [reflexivity | vm_compute in Hstep; discriminate Hstep].
  - vm_compute. reflexivity.
  - intros l. rewrite (run_app sched [Go "p"; l]), Hrun. clear Hrun.
    cbn [mbind option_bind run].
    match goal with |- context [step (Go "p") ?st] =>
      eassert (Hs : step (Go "p") st = Some _) by (vm_compute; reflexivity) end.
    rewrite Hs. clear Hs. by rewrite crashed_is_stuck.
Qed.

(** C5.  A request with a method other than GET is answered 405 by both
    endpoints, whatever the registry and the schedules, and no check and
    no callback runs: the trace is empty. *)
Theorem C5_other_method_405_no_check_runs s h0 r scheds :
  Method r ≠ MethodGet →
  let w := Error (freshWriter h0) "method not allowed"
             StatusMethodNotAllowed in
  LiveEndpoint s (freshWriter h0) r scheds = Some (Responded s w [])
  ∧ ReadyEndpoint s (freshWriter h0) r scheds = Some (Responded s w [])
  ∧ Code w = Some StatusMethodNotAllowed.
Proof.
  intros Hm. unfold LiveEndpoint, ReadyEndpoint.
  rewrite !handle_other_method by done. done.
Qed.

(** C6 (the code breaks it, by the defect of C1).  The claim: the
    callback is called exactly once for each check that fails or aborts.
    In the deferred function the callback call comes after the send of
    the recovered panic, which comes after [wg.Done()].  Here a callback
    is registered and the only check, ["p"], panics, so one call is owed
    ([reports]): under the schedule of C1 [collectChecks] returns with
    no callback call made, the send of ["p"] then kills the process, and
    the callback is never called. *)
Theorem C6_no_callback_call_when_close_overtakes_the_send :
  let s := AddCheckErrorHandler (Callback 0)
             (AddLivenessCheck "p" (Panics "boom") NewHandler) in
  let sched := [Go "p"; Go "p"; Closer] in
  failed (Panics "boom")
  ∧ reports s "p" (livenessChecks s)
    = [(Callback 0, "checker panic recovered: boom")]
  ∧ (λ st, (closed st, crashed st, trace st, callbacks "p" (trace st)))
      <$> run sched (start s (livenessChecks s) ∅ [])
    = Some (true, false, [CheckCalled "p"], [])
  ∧ (λ st, (crashed st, trace st, callbacks "p" (trace st)))
      <$> collectChecks s (livenessChecks s) ∅ [] (sched ++ [Go "p"])
    = Some (true, [CheckCalled "p"], [])
  ∧ LiveEndpoint s (freshWriter ∅) {| Method := "GET"; Query := ∅ |}
      [sched ++ [Go "p"]]
    = Some (Crashed [CheckCalled "p"]).
Proof.
  intros s sched. split; [done |]. repeat split; vm_compute; reflexivity.
Qed.

(** C7 as stated fails: a POST is answered by [http.Error], with a
    plain-text content type and none of the caching headers. *)
Lemma C7_headers_not_set_on_other_methods :
  ∃ w, LiveEndpoint NewHandler (freshWriter ∅)
         {| Method := "POST"; Query := ∅ |} []
       = Some (Responded NewHandler w [])
       ∧ Header w !! "Content-Type" = Some "text/plain; charset=utf-8"
       ∧ Header w !! "Cache-Control" = None
       ∧ Header w !! "Pragma" = None
       ∧ Header w !! "Expires" = None.
Proof. eexists. repeat split; vm_compute; reflexivity. Qed.

(** C7 (amended).  Every GET request that [handle] answers carries the
    four headers, whatever the verbosity, the checks and the status. *)
Theorem C7_headers_on_every_GET s h0 r checks scheds s' w' tr :
  Method r = MethodGet →
  handle s (freshWriter h0) r checks scheds = Some (Responded s' w' tr) →
  Header w' !! "Content-Type" = Some "application/json; charset=utf-8"
  ∧ Header w' !! "Cache-Control" = Some "no-cache, no-store, must-revalidate"
  ∧ Header w' !! "Pragma" = Some "no-cache"
  ∧ Header w' !! "Expires" = Some "0".
Proof.
  intros Hm Hh. apply handle_get in Hh as (_ & -> & _); [| done].
  repeat split; by simplify_map_eq.
Qed.

(** C8.  A GET request whose [full] is not [1] is answered with the body
    [{}] and a newline (the bytes 123, 125 and 10), whatever the checks
    and the status. *)
Theorem C8_body_is_empty_object_without_full s h0 r checks scheds s' w' tr :
  Method r = MethodGet →
  Get (Query r) "full" ≠ "1" →
  handle s (freshWriter h0) r checks scheds = Some (Responded s' w' tr) →
  Body w' = [Bytes emptyObject]
  ∧ emptyObject
    = String (Ascii.ascii_of_nat 123)
        (String (Ascii.ascii_of_nat 125) (String (Ascii.ascii_of_nat 10) ""))
  ∧ String.length emptyObject = 3.
Proof.
  intros Hm Hq Hh. apply handle_get in Hh as (_ & _ & _ & -> & _); [| done].
  by rewrite decide_False.
Qed.

(** C9.  A request that is answered leaves the handler as it was: both
    check mappings, the callback binding, and the mutex, which is
    released. *)
Theorem C9_request_leaves_handler_unchanged s w r checks scheds s' w' tr :
  handle s w r checks scheds = Some (Responded s' w' tr) →
  livenessChecks s' = livenessChecks s
  ∧ readinessChecks s' = readinessChecks s
  ∧ errorHandler s' = errorHandler s
  ∧ checksMutex s' = checksMutex s.
Proof.
  unfold handle. case_decide.
  - destruct (collectLoop checks scheds s ∅ StatusOK [])
      as [[s1 out code tr1|tr1]|] eqn:Hloop; [| done | done].
    apply collectLoop_done in Hloop as (-> & _). by intros [= <- _ _].
  - by intros [= <- _ _].
Qed.

(** C10.  With a nil database the check of [DatabasePingCheck] returns the
    error [database is nil], for every timeout; it does not panic. *)
Theorem C10_nil_database_is_an_error timeout :
  DatabasePingCheck None timeout = Returns (Some "database is nil")
  ∧ outcome (DatabasePingCheck None timeout) = "database is nil"
  ∧ ∀ v, DatabasePingCheck None timeout ≠ Panics v.
Proof. done. Qed.

(** ** The theorems at concrete requests *)

Lemma C5_witness :
  let s := AddLivenessCheck "test-liveness-check"
             (Returns (Some "failed liveness check")) NewHandler in
  let r := {| Method := "POST"; Query := ∅ |} in
  let w := Error (freshWriter ∅) "method not allowed"
             StatusMethodNotAllowed in
  Method r ≠ MethodGet
  ∧ LiveEndpoint s (freshWriter ∅) r [] = Some (Responded s w [])
  ∧ ReadyEndpoint s (freshWriter ∅) r [] = Some (Responded s w [])
  ∧ Code w = Some StatusMethodNotAllowed.
Proof.
  intros s r w.
  assert (Hm : Method r ≠ MethodGet) by (vm_compute; discriminate).
  split; [exact Hm |].
  exact (C5_other_method_405_no_check_runs s ∅ r [] Hm).
Defined.

Lemma C7_witness :
  let s := AddLivenessCheck "test-liveness-check"
             (Returns (Some "failed liveness check")) NewHandler in
  let r := {| Method := "GET"; Query := {["full" := ["1"]]} |} in
  let scheds := [straight "test-liveness-check" ++ [Closer]] in
  ∃ w tr,
    Method r = MethodGet
    ∧ handle s (freshWriter ∅) r [livenessChecks s] scheds
      = Some (Responded s w tr)
    ∧ Code w = Some StatusServiceUnavailable
    ∧ Header w !! "Content-Type" = Some "application/json; charset=utf-8"
    ∧ Header w !! "Cache-Control" = Some "no-cache, no-store, must-revalidate"
    ∧ Header w !! "Pragma" = Some "no-cache"
    ∧ Header w !! "Expires" = Some "0".
Proof.
  intros s r scheds.
  assert (Hm : Method r = MethodGet) by reflexivity.
  eassert (H : handle s (freshWriter ∅) r [livenessChecks s] scheds = _)
    by (vm_compute; reflexivity).
  eexists _, _. split; [exact Hm |]. split; [exact H |].
  split; [reflexivity |].
  exact (C7_headers_on_every_GET _ _ _ _ _ _ _ _ Hm H).
Defined.

Lemma C8_witness :
  let s := AddLivenessCheck "test-liveness-check"
             (Returns (Some "failed liveness check")) NewHandler in
  let r := {| Method := "GET"; Query := {["full" := ["0"; "1"]]} |} in
  let scheds := [[]; straight "test-liveness-check" ++ [Closer]] in
  ∃ w tr,
    Method r = MethodGet
    ∧ Get (Query r) "full" ≠ "1"
    ∧ handle s (freshWriter ∅) r [readinessChecks s; livenessChecks s] scheds
      = Some (Responded s w tr)
    ∧ Code w = Some StatusServiceUnavailable
    ∧ Body w = [Bytes emptyObject]
    ∧ emptyObject
      = String (Ascii.ascii_of_nat 123)
          (String (Ascii.ascii_of_nat 125)
             (String (Ascii.ascii_of_nat 10) ""))
    ∧ String.length emptyObject = 3.
Proof.
  intros s r scheds.
  assert (Hm : Method r = MethodGet) by reflexivity.
  assert (Hq : Get (Query r) "full" ≠ "1") by (vm_compute; discriminate).
  eassert (H : handle s (freshWriter ∅) r
                 [readinessChecks s; livenessChecks s] scheds = _)
    by (vm_compute; reflexivity).
  eexists _, _. split; [exact Hm |]. split; [exact Hq |].
  split; [exact H |]. split; [reflexivity |].
  exact (C8_body_is_empty_object_without_full _ _ _ _ _ _ _ _ Hm Hq H).
Defined.

Lemma C9_witness :
  let s := AddCheckErrorHandler (Callback 1)
             (AddReadinessCheck "r" (Panics "boom")
                (AddLivenessCheck "l" (Returns (Some "down")) NewHandler)) in
  let r := {| Method := "GET"; Query := ∅ |} in
  let scheds := [[Go "r"; Go "r"; Go "r"; Closer; Go "r"];
                 straight "l" ++ [Closer]] in
  ∃ s' w tr,
    handle s (freshWriter ∅) r [readinessChecks s; livenessChecks s] scheds
    = Some (Responded s' w tr)
    ∧ livenessChecks s' = livenessChecks s
    ∧ readinessChecks s' = readinessChecks s
    ∧ errorHandler s' = errorHandler s
    ∧ checksMutex s' = checksMutex s.
Proof.
  intros s r scheds.
  eassert (H : handle s (freshWriter ∅) r
                 [readinessChecks s; livenessChecks s] scheds = _)
    by (vm_compute; reflexivity).
  eexists _, _, _. split; [exact H |].
  exact (C9_request_leaves_handler_unchanged _ _ _ _ _ _ _ _ H).
Defined.

(** ** Further properties of the handler *)

(** With no callback registered and no check that panics in the evaluated
    mappings, no schedule kills the process: a request that ends, ends
    with an answer. *)
Theorem no_panic_no_crash s w r checks scheds o :
  errorHandler s = None →
  (∀ m name v, m ∈ checks → m !! name ≠ Some (Panics v)) →
  handle s w r checks scheds = Some o →
  ∃ s' w' tr, o = Responded s' w' tr.
Proof.
  intros _ Hnp Hh. destruct o as [s' w' tr|tr]; [eauto |].
  apply handle_crashed in Hh as (m & name & v & Hin & Hl).
  by destruct (Hnp m name v).
Qed.

Lemma merged_all_OK checks :
  Forall (map_Forall (λ _ c, c = Returns None)) checks →
  map_Forall (λ _ v, v = successCheckerResultString) (merged checks ∅).
Proof.
  intros Hall name v. rewrite merged_lookup, lookup_empty.
  destruct (latest checks name) as [c|] eqn:Hc; [| done]. intros [= <-].
  revert c Hc. induction Hall as [|m checks Hm _ IH]; intros c Hc; [done |].
  simpl in Hc. destruct (latest checks name) as [c'|] eqn:Hl.
  - simplify_eq. by apply IH.
  - by rewrite (Hm _ _ Hc).
Qed.

Lemma merged_dom checks : dom (merged checks ∅) = ⋃ (dom <$> checks).
Proof.
  apply set_eq. intros name.
  rewrite elem_of_dom, merged_lookup, lookup_empty, elem_of_union_list.
  split.
  - intros Hs. assert (is_Some (latest checks name)) as Hl.
    { destruct (latest checks name); [eauto | by destruct Hs]. }
    apply latest_is_Some in Hl as (m & Hin & Hm). exists (dom m). split.
    + apply list_elem_of_fmap. eauto.
    + by apply elem_of_dom.
  - intros (X & HX & Hname). apply list_elem_of_fmap in HX as (m & -> & Hin).
    assert (is_Some (latest checks name)) as [c ->]; [| eauto].
    apply latest_is_Some. exists m. split; [done |]. by apply elem_of_dom.
Qed.

(** When every check of the evaluated mappings returns nil, a GET is
    answered 200, no callback is called, and the detail mapping written
    for [full=1] has the entry OK for every registered name. *)
Theorem all_checks_succeed_answers_200 s h0 r checks scheds s' w' tr :
  Method r = MethodGet →
  Forall (map_Forall (λ _ c, c = Returns None)) checks →
  handle s (freshWriter h0) r checks scheds = Some (Responded s' w' tr) →
  Code w' = Some StatusOK
  ∧ (∀ name, callbacks name tr = [])
  ∧ (Get (Query r) "full" = "1" →
     ∃ out, Body w' = [IndentedJSON out]
            ∧ dom out = ⋃ (dom <$> checks)
            ∧ map_Forall (λ _ v, v = successCheckerResultString) out).
Proof.
  intros Hm Hall Hh.
  pose proof Hh as Hg. apply handle_get in Hg as (_ & _ & -> & -> & Htr);
    [| done].
  clear Hh. split; [| split].
  - rewrite decide_False; [done |]. intros He.
    apply Exists_exists in He as (m & Hin & name & c & Hl & Hne).
    rewrite Forall_forall in Hall. rewrite (Hall m Hin name c Hl) in Hne.
    by destruct Hne.
  - intros name. rewrite (callbacks_loop s name tr checks (Htr name)).
    clear -Hall. induction Hall as [|m checks Hm _ IH]; [done |].
    rewrite fmap_cons. cbn [concat]. rewrite IH, app_nil_r.
    unfold reports. destruct (errorHandler s); [| done].
    destruct (m !! name) as [c|] eqn:Hc; [| done]. by rewrite (Hm _ _ Hc).
  - intros Hq. rewrite decide_True by done. eexists. split; [done |].
    split; [apply merged_dom |]. by apply merged_all_OK.
Qed.

(** In every state a pass reaches, also one in which the process died,
    the entries of the result mapping under names the pass has no check
    for are the ones it was called with; and when the pass is over and
    the process lives, the entry of each of its checks is the string of
    the check, an earlier entry under the same name being overwritten. *)
Theorem collectChecks_writes_only_its_names s checks out tr sched st :
  run sched (start s checks out tr) = Some st →
  (∀ name, checks !! name = None → resultsOut st !! name = out !! name)
  ∧ (finished st = true → crashed st = false →
     ∀ name c, checks !! name = Some c →
               resultsOut st !! name = Some (outcome c)).
Proof.
  intros Hrun.
  pose proof (inv_run _ _ _ _ _ _ _ (inv_start s checks out tr) Hrun) as Hinv.
  split.
  - intros name Hn. rewrite (inv_out _ _ _ _ _ Hinv).
    pose proof (inv_units _ _ _ _ _ Hinv name) as Hu. rewrite Hn in Hu.
    by destruct (units st !! name).
  - intros Hf Hc name c Hn.
    destruct (pass_final _ _ _ _ _ Hinv Hf Hc) as (_ & -> & _).
    by rewrite lookup_union, lookup_fmap, Hn; destruct (out !! name).
Qed.

(** The early return: over a mapping without checks [collectChecks] makes
    no move at all; it returns 200 and leaves the result mapping, the
    trace and the handler as they are. *)
Theorem collectChecks_of_no_checks s checks out tr sched st :
  size checks = 0 →
  collectChecks s checks out tr sched = Some st →
  sched = [] ∧ status st = StatusOK ∧ resultsOut st = out
  ∧ trace st = tr ∧ self st = s ∧ crashed st = false.
Proof.
  intros Hz. unfold collectChecks, start. rewrite decide_True by done.
  destruct sched as [|l sched]; simpl.
  - intros [= <-]. simpl. by rewrite RUnlock_RLock.
  - unfold step. simpl. destruct l; [| done].
    unfold step_unit. simpl. by rewrite lookup_empty.
Qed.

(** The read lock is held from the start of a pass until [collectChecks]
    returns, and by then every check of the pass has been called and has
    run [wg.Done()]: no check runs outside the lock. *)
Theorem checks_run_under_the_read_lock s checks out tr sched st :
  run sched (start s checks out tr) = Some st →
  checksMutex (self st)
  = (if closed st then checksMutex s else S (checksMutex s))
  ∧ (closed st = true →
     ∀ name, calls name (trace st) = calls name tr + registered checks name).
Proof.
  intros Hrun.
  pose proof (inv_run _ _ _ _ _ _ _ (inv_start s checks out tr) Hrun) as Hinv.
  split.
  - rewrite (inv_self _ _ _ _ _ Hinv). by destruct (closed st).
  - intros Hcl name.
    rewrite <- (calls_about name (trace st)), (inv_trace _ _ _ _ _ Hinv).
    rewrite calls_app, calls_about. f_equal.
    pose proof (inv_units _ _ _ _ _ Hinv name) as Hu.
    unfold registered. rewrite <- Hu.
    destruct (units st !! name) as [[c g]|] eqn:Hl; [| done]. simpl.
    pose proof (total_lookup_le pending _ _ _ Hl) as Hle.
    rewrite <- (inv_wg _ _ _ _ _ Hinv), (inv_closed _ _ _ _ _ Hinv Hcl) in Hle.
    unfold pending in Hle. simpl in Hle.
    unfold calls, emitted, notify. simpl.
    destruct g; try lia; simpl; rewrite filter_cons_True by done; simpl;
      f_equal; repeat case_match; done.
Qed.

(** A check that returns, registered as a liveness check, shows in the
    detail of both endpoints under its name with its own string, whatever
    was registered under that name before, as a liveness or as a
    readiness check, and whatever the other checks do. *)
Theorem liveness_registration_shows_in_both_details
    s name err h0 r scheds s' w' tr :
  let s1 := AddLivenessCheck name (Returns err) s in
  Method r = MethodGet → Get (Query r) "full" = "1" →
  LiveEndpoint s1 (freshWriter h0) r scheds = Some (Responded s' w' tr)
  ∨ ReadyEndpoint s1 (freshWriter h0) r scheds = Some (Responded s' w' tr) →
  ∃ out, Body w' = [IndentedJSON out]
         ∧ out !! name = Some (default successCheckerResultString err).
Proof.
  intros s1 Hm Hq [Hh|Hh];
    apply handle_get in Hh as (_ & _ & _ & -> & _); try done;
    rewrite decide_True by done; eexists; (split; [done |]);
    rewrite merged_lookup; simpl; rewrite lookup_insert_eq;
    by destruct err.
Qed.

(** A name registered in both mappings, with checks that return:
    [/ready] calls both checks, the detail shows the string of the
    liveness check only, and an error of the readiness check whose
    message is not OK still makes the answer 503.  A 503 may thus come
    with a detail entry OK. *)
Theorem readiness_failure_masked_in_detail
    s name msg err h0 r scheds s' w' tr :
  readinessChecks s !! name = Some (Returns (Some msg)) →
  livenessChecks s !! name = Some (Returns err) →
  msg ≠ successCheckerResultString →
  Method r = MethodGet → Get (Query r) "full" = "1" →
  ReadyEndpoint s (freshWriter h0) r scheds = Some (Responded s' w' tr) →
  Code w' = Some StatusServiceUnavailable
  ∧ calls name tr = 2
  ∧ ∃ out, Body w' = [IndentedJSON out]
           ∧ out !! name = Some (default successCheckerResultString err).
Proof.
  intros Hr Hl Hne Hm Hq Hh.
  apply handle_get in Hh as (_ & _ & -> & -> & Htr); [| done].
  split; [| split].
  - rewrite decide_True; [done |]. apply Exists_cons_hd.
    by exists name, (Returns (Some msg)).
  - rewrite <- calls_about, Htr. simpl.
    rewrite app_nil_r, calls_app, !calls_ran. unfold registered.
    by rewrite Hr, Hl.
  - rewrite decide_True by done. eexists. split; [done |].
    rewrite merged_lookup. simpl. rewrite Hl. by destruct err.
Qed.

Lemma count_occ_about tr ev :
  count_occ Event_eq_dec (about (event_name ev) tr) ev
  = count_occ Event_eq_dec tr ev.
Proof.
  unfold about. induction tr as [|ev' tr IH]; [done |].
  destruct (decide (event_name ev' = event_name ev)) as [He|He].
  - rewrite filter_cons_True by done. simpl. rewrite IH. done.
  - rewrite filter_cons_False by done. simpl.
    destruct (Event_eq_dec ev' ev) as [->|_]; [by destruct He | done].
Qed.

Lemma handle_confluent
    s1 s2 h0 r checks scheds1 scheds2 s1' w1 tr1 s2' w2 tr2 :
  Method r = MethodGet →
  handle s1 (freshWriter h0) r checks scheds1 = Some (Responded s1' w1 tr1) →
  handle s2 (freshWriter h0) r checks scheds2 = Some (Responded s2' w2 tr2) →
  w1 = w2 ∧ (errorHandler s1 = errorHandler s2 → tr1 ≡ₚ tr2).
Proof.
  intros Hm H1 H2.
  apply handle_get in H1 as (_ & Hh1 & Hc1 & Hb1 & Ht1); [| done].
  apply handle_get in H2 as (_ & Hh2 & Hc2 & Hb2 & Ht2); [| done].
  split.
  - destruct w1, w2. simpl in *. congruence.
  - intros He. apply (Permutation_count_occ Event_eq_dec). intros ev.
    rewrite <- (count_occ_about tr1), <- (count_occ_about tr2).
    rewrite Ht1, Ht2. do 2 f_equal. apply list_fmap_ext. intros _ m _.
    unfold ran, emitted, notify. by rewrite He.
Qed.

(** When no check of the evaluated mappings panics, the interleaving of
    the goroutines does not show in the answer: given what each check
    returns, two runs of a request on a handler, under any two schedules,
    write the same response. *)
Theorem answer_independent_of_schedule
    s h0 r checks scheds1 scheds2 s1' w1 tr1 s2' w2 tr2 :
  (∀ m name v, m ∈ checks → m !! name ≠ Some (Panics v)) →
  Method r = MethodGet →
  handle s (freshWriter h0) r checks scheds1 = Some (Responded s1' w1 tr1) →
  handle s (freshWriter h0) r checks scheds2 = Some (Responded s2' w2 tr2) →
  w1 = w2.
Proof.
  intros _ Hm H1 H2.
  by destruct (handle_confluent _ _ _ _ _ _ _ _ _ _ _ _ _ Hm H1 H2).
Qed.

(** In every state a pass reaches, also one in which the process died, a
    callback call that the pass has made was made on the callback bound
    in the handler, and for a name under which the mapping has a check
    that returned an error or panicked: no other function is called, and
    no call is made for a check that succeeded. *)
Theorem callback_only_for_a_failed_check
    s checks out tr sched st h name err :
  run sched (start s checks out tr) = Some st →
  HandlerCalled h name err ∈ trace st →
  HandlerCalled h name err ∈ tr
  ∨ (errorHandler s = Some h ∧ ∃ c, checks !! name = Some c ∧ failed c).
Proof.
  intros Hrun Hin.
  pose proof (inv_run _ _ _ _ _ _ _ (inv_start s checks out tr) Hrun) as Hinv.
  assert (HandlerCalled h name err ∈ about name (trace st)) as Hab.
  { unfold about. by apply list_elem_of_filter. }
  rewrite (inv_trace _ _ _ _ _ Hinv) in Hab.
  apply elem_of_app in Hab as [Hab|Hab].
  { left. unfold about in Hab. by apply list_elem_of_filter in Hab as [_ ?]. }
  right. pose proof (inv_units _ _ _ _ _ Hinv name) as Hu.
  destruct (units st !! name) as [[c g]|] eqn:Hl;
    [| by apply elem_of_nil in Hab].
  simpl in Hu. symmetry in Hu.
  assert (HandlerCalled h name err ∈ CheckCalled name ::
            match reported c with
            | Some e => notify s name e
            | None => []
            end) as Hev.
  { clear -Hab. unfold emitted in Hab. simpl in Hab.
    destruct g as [|val|[v|]|v|v| |]; try (by apply elem_of_nil in Hab);
      try done;
      try (apply elem_of_cons in Hab as [Hab|Hab];
           [done | by apply elem_of_nil in Hab]).
    - destruct c as [[e|]|v]; simpl; try done;
        apply elem_of_cons in Hab as [Hab|Hab];
        try done; by apply elem_of_nil in Hab.
    - destruct c as [[e|]|v]; simpl; try done;
        apply elem_of_cons in Hab as [Hab|Hab];
        try done; by apply elem_of_nil in Hab. }
  apply elem_of_cons in Hev as [Hev|Hev]; [done |].
  destruct (reported c) as [e|] eqn:Hrep; [| by apply elem_of_nil in Hev].
  unfold notify in Hev.
  destruct (errorHandler s) as [h'|]; [| by apply elem_of_nil in Hev].
  apply list_elem_of_singleton in Hev. simplify_eq.
  split; [done |]. exists c. split; [done |]. by intros ->.
Qed.

(** When no check of the evaluated mappings panics, the status of an
    answer to a GET request is 200 or 503, and it is 503 exactly when
    one of the checks returned an error whose message is not OK,
    whatever the schedule. *)
Theorem status_503_iff_a_string_differs s h0 r checks scheds s' w' tr :
  (∀ m name v, m ∈ checks → m !! name ≠ Some (Panics v)) →
  Method r = MethodGet →
  handle s (freshWriter h0) r checks scheds = Some (Responded s' w' tr) →
  (Code w' = Some StatusServiceUnavailable
   ↔ ∃ m name msg, m ∈ checks ∧ m !! name = Some (Returns (Some msg))
                   ∧ msg ≠ successCheckerResultString)
  ∧ (Code w' = Some StatusOK ∨ Code w' = Some StatusServiceUnavailable).
Proof.
  intros Hnp Hm Hh.
  destruct (status_by_strings _ _ _ _ _ _ _ _ Hm Hh) as [Hiff Hor].
  split; [| done]. rewrite Hiff. split.
  - intros (m & name & c & Hin & Hl & Hne).
    destruct c as [[msg|]|v]; [by eauto 10 | done |].
    by destruct (Hnp m name v).
  - intros (m & name & msg & Hin & Hl & Hne). eauto 10.
Qed.

(** ** Passes over checks that return *)


(** When no check of the mappings panics, after the passes of a request
    the names of the result mapping are exactly the names of the mappings
    (a mapping has one entry per name), and the entry of a name is the
    string of the check of the last mapping that has the name. *)
Theorem one_entry_per_name_later_mapping_wins
    checks scheds s s' out code tr :
  (∀ m name v, m ∈ checks → m !! name ≠ Some (Panics v)) →
  collectLoop checks scheds s ∅ StatusOK [] = Some (Done s' out code tr) →
  dom out = ⋃ (dom <$> checks)
  ∧ (∀ name, out !! name = outcome <$> latest checks name).
Proof.
  intros _ Hloop. apply collectLoop_done in Hloop as (_ & -> & _).
  split; [apply merged_dom |]. intros name.
  rewrite merged_lookup, lookup_empty. by destruct (latest checks name).
Qed.

(** What the endpoints evaluate.  A GET on [/live] that is answered has
    called every liveness check once and no other check; a GET on
    [/ready] that is answered has called every readiness check once and
    every liveness check once, a check registered as both twice. *)
Theorem endpoints_call_their_mappings s h0 r scheds s' w' tr :
  Method r = MethodGet →
  (LiveEndpoint s (freshWriter h0) r scheds = Some (Responded s' w' tr) →
   ∀ name, calls name tr = registered (livenessChecks s) name)
  ∧ (ReadyEndpoint s (freshWriter h0) r scheds = Some (Responded s' w' tr) →
     ∀ name, calls name tr = registered (readinessChecks s) name
                             + registered (livenessChecks s) name).
Proof.
  intros Hm. split; intros Hh name;
    apply handle_get in Hh as (_ & _ & _ & _ & Htr); try done;
    rewrite <- calls_about, Htr; simpl.
  - by rewrite app_nil_r, calls_ran.
  - by rewrite app_nil_r, calls_app, !calls_ran.
Qed.

(** A check that returns an error whose message is not OK makes the
    endpoints that evaluate it answer 503, whatever the other checks do:
    both endpoints when it is a liveness check, [/ready] when it is a
    readiness check.  And [/live] answers 200 when every liveness check
    returns nil, whatever the readiness checks do. *)
Theorem failing_check_answers_503_where_it_is_evaluated
    s name msg h0 r scheds s' w' tr :
  msg ≠ successCheckerResultString →
  Method r = MethodGet →
  (livenessChecks s !! name = Some (Returns (Some msg)) →
   LiveEndpoint s (freshWriter h0) r scheds = Some (Responded s' w' tr)
   ∨ ReadyEndpoint s (freshWriter h0) r scheds = Some (Responded s' w' tr) →
   Code w' = Some StatusServiceUnavailable)
  ∧ (readinessChecks s !! name = Some (Returns (Some msg)) →
     ReadyEndpoint s (freshWriter h0) r scheds = Some (Responded s' w' tr) →
     Code w' = Some StatusServiceUnavailable)
  ∧ (map_Forall (λ _ c, c = Returns None) (livenessChecks s) →
     LiveEndpoint s (freshWriter h0) r scheds = Some (Responded s' w' tr) →
     Code w' = Some StatusOK).
Proof.
  intros Hne Hm. split; [| split].
  - intros Hl [Hh|Hh];
      apply handle_get in Hh as (_ & _ & -> & _); try done;
      rewrite decide_True; try done.
    + apply Exists_cons_hd. by exists name, (Returns (Some msg)).
    + apply Exists_cons_tl, Exists_cons_hd.
      by exists name, (Returns (Some msg)).
  - intros Hr Hh. apply handle_get in Hh as (_ & _ & -> & _); [| done].
    rewrite decide_True; [done |]. apply Exists_cons_hd.
    by exists name, (Returns (Some msg)).
  - intros Hall Hh. apply handle_get in Hh as (_ & _ & -> & _); [| done].
    rewrite decide_False; [done |]. rewrite Exists_cons, Exists_nil.
    intros [(n & c & Hl & Hc)|[]]. rewrite (Hall _ _ Hl) in Hc.
    by destruct Hc.
Qed.

(** ** The kafka probe *)

Lemma dialEach_spec net timeout endpoints : ∀ errorsList,
  match dialEach net timeout endpoints errorsList with
  | (None, evs) =>
      ∃ pre ep post, endpoints = pre ++ ep :: post
                     ∧ Forall (λ e, ¬ reachable net timeout e) pre
                     ∧ reachable net timeout ep
                     ∧ dialled evs = pre ++ [ep]
  | (Some errs, evs) =>
      Forall (λ e, ¬ reachable net timeout e) endpoints
      ∧ errs = errorsList ++ omap (endpointError net timeout) endpoints
      ∧ length errs = length errorsList + length endpoints
      ∧ dialled evs = endpoints
  end.
Proof.
  induction endpoints as [|ep endpoints IH]; intros errorsList; simpl.
  - rewrite app_nil_r. repeat split; [constructor | lia].
  - unfold endpointError at 1, reachable at 3.
    destruct (DialTimeout net ep timeout) as [e|[e|]] eqn:Hd.
    + specialize (IH (errorsList ++ [e])).
      destruct (dialEach net timeout endpoints (errorsList ++ [e]))
        as [[errs|] evs]; simpl.
      * destruct IH as (Hall & -> & Hlen & Hdl). repeat split.
        -- constructor; [| done]. unfold reachable. by rewrite Hd.
        -- by rewrite <- app_assoc.
        -- rewrite Hlen, length_app. simpl. lia.
        -- by rewrite Hdl.
      * destruct IH as (pre & g & post & -> & Hall & Hg & Hdl).
        exists (ep :: pre), g, post. repeat split; [| done |].
        -- constructor; [| done]. unfold reachable. by rewrite Hd.
        -- by rewrite Hdl.
    + specialize (IH (errorsList ++ [e])).
      destruct (dialEach net timeout endpoints (errorsList ++ [e]))
        as [[errs|] evs]; simpl.
      * destruct IH as (Hall & -> & Hlen & Hdl). repeat split.
        -- constructor; [| done]. unfold reachable. by rewrite Hd.
        -- by rewrite <- app_assoc.
        -- rewrite Hlen, length_app. simpl. lia.
        -- by rewrite Hdl.
      * destruct IH as (pre & g & post & -> & Hall & Hg & Hdl).
        exists (ep :: pre), g, post. repeat split; [| done |].
        -- constructor; [| done]. unfold reachable. by rewrite Hd.
        -- by rewrite Hdl.
    + exists [], ep, endpoints. repeat split; [constructor | done].
Qed.

Lemma dialEach_closes net timeout endpoints : ∀ errorsList,
  connsClosed (dialEach net timeout endpoints errorsList).2
  = filter (connects net timeout)
      (dialled (dialEach net timeout endpoints errorsList).2).
Proof.
  induction endpoints as [|ep endpoints IH]; intros errorsList; simpl;
    [done |].
  destruct (DialTimeout net ep timeout) as [e|[e|]] eqn:Hd.
  - specialize (IH (errorsList ++ [e])).
    destruct (dialEach net timeout endpoints (errorsList ++ [e]))
      as [res evs]; simpl in *.
    rewrite filter_cons_False; [done |]. intros [ce Hce]. congruence.
  - specialize (IH (errorsList ++ [e])).
    destruct (dialEach net timeout endpoints (errorsList ++ [e]))
      as [res evs]; simpl in *.
    rewrite filter_cons_True by (by eexists). by rewrite IH.
  - simpl. rewrite filter_cons_True by (by eexists). done.
Qed.

(** The kafka check succeeds exactly when one of the endpoints accepts a
    connection and closes it without error; with no endpoint it fails. *)
Theorem kafka_succeeds_iff_an_endpoint_is_reachable net endpoints timeout :
  (DialCheck_run net endpoints timeout).1 = None
  ↔ ∃ ep, ep ∈ endpoints ∧ reachable net timeout ep.
Proof.
  unfold DialCheck_run. case_decide as Hlen.
  - destruct endpoints; [| done]. simpl. split; [done |].
    intros (ep & Hin & _). by apply elem_of_nil in Hin.
  - pose proof (dialEach_spec net timeout endpoints []) as Hs.
    destruct (dialEach net timeout endpoints []) as [[errs|] evs]; simpl.
    + destruct Hs as (Hall & _). split; [done |].
      intros (ep & Hin & Hr). rewrite Forall_forall in Hall.
      by destruct (Hall ep Hin).
    + destruct Hs as (pre & ep & post & -> & _ & Hr & _). split; [| done].
      intros _. exists ep. split; [| done]. set_solver.
Qed.

(** When the kafka check succeeds it has dialled the endpoints in order up
    to the first reachable one, and none after it. *)
Theorem kafka_stops_at_the_first_reachable_endpoint net endpoints timeout :
  (DialCheck_run net endpoints timeout).1 = None →
  ∃ pre ep post,
    endpoints = pre ++ ep :: post
    ∧ Forall (λ e, ¬ reachable net timeout e) pre
    ∧ reachable net timeout ep
    ∧ dialled (DialCheck_run net endpoints timeout).2 = pre ++ [ep].
Proof.
  unfold DialCheck_run. case_decide as Hlen; [done |].
  pose proof (dialEach_spec net timeout endpoints []) as Hs.
  destruct (dialEach net timeout endpoints []) as [[errs|] evs]; simpl;
    [done |]. by intros _.
Qed.

(** When the kafka check fails, either there was no endpoint, nothing was
    dialled and the error is [empty kafka endpoints]; or every endpoint
    was dialled, in order, and the error lists one error per endpoint, in
    that order, between brackets. *)
Theorem kafka_failure_lists_an_error_per_endpoint
    net endpoints timeout msg :
  (DialCheck_run net endpoints timeout).1 = Some msg →
  (endpoints = [] ∧ msg = "empty kafka endpoints"
   ∧ (DialCheck_run net endpoints timeout).2 = [])
  ∨ (endpoints ≠ []
     ∧ dialled (DialCheck_run net endpoints timeout).2 = endpoints
     ∧ msg = formatErrors (omap (endpointError net timeout) endpoints)
     ∧ length (omap (endpointError net timeout) endpoints)
       = length endpoints).
Proof.
  unfold DialCheck_run. case_decide as Hlen.
  - destruct endpoints; [| done]. simpl. intros [= <-]. by left.
  - pose proof (dialEach_spec net timeout endpoints []) as Hs.
    destruct (dialEach net timeout endpoints []) as [[errs|] evs]; simpl;
      [| done].
    destruct Hs as (_ & -> & Hl & Hd). simpl in *. intros [= <-]. right.
    split; [by destruct endpoints |]. done.
Qed.

(** The kafka check closes every connection it opens, whether it succeeds
    or fails. *)
Theorem kafka_closes_every_connection net endpoints timeout :
  connsClosed (DialCheck_run net endpoints timeout).2
  = filter (connects net timeout)
      (dialled (DialCheck_run net endpoints timeout).2).
Proof.
  unfold DialCheck_run. case_decide as Hlen; [done |].
  pose proof (dialEach_closes net timeout endpoints []) as Hc.
  by destruct (dialEach net timeout endpoints []) as [[errs|] evs].
Qed.

(** ** The probes of package [misc] *)

(** The DNS check succeeds exactly when the lookup returns no error and at
    least one address; a lookup without error and without address fails
    with [could not resolve host]. *)
Theorem dns_check_needs_an_address net host timeout :
  (DNSResolveCheck_run net host timeout = None
   ↔ (LookupHost net host timeout).2 = None
     ∧ (LookupHost net host timeout).1 ≠ [])
  ∧ (LookupHost net host timeout = ([], None) →
     DNSResolveCheck_run net host timeout = Some "could not resolve host").
Proof.
  unfold DNSResolveCheck_run.
  destruct (LookupHost net host timeout) as [addrs [e|]]; simpl.
  - split; [| done]. split; [done | by intros [? _]].
  - destruct addrs as [|a addrs]; simpl.
    + split; [| done]. split; [done | by intros [_ ?]].
    + split; [| done]. done.
Qed.

(** The TCP check succeeds exactly when the dial gives a connection and
    closing it gives no error; it dials once, and closes the connection
    exactly when it got one: a close error fails the check. *)
Theorem tcp_check_closes_what_it_opens net addr timeout :
  ((TCPDialCheck_run net addr timeout).1 = None
   ↔ reachable net timeout addr)
  ∧ dialled (TCPDialCheck_run net addr timeout).2 = [addr]
  ∧ connsClosed (TCPDialCheck_run net addr timeout).2
    = filter (connects net timeout) [addr].
Proof.
  unfold TCPDialCheck_run, reachable.
  destruct (DialTimeout net addr timeout) as [e|ce] eqn:Hd; simpl.
  - split; [done |]. split; [done |].
    rewrite filter_cons_False; [done |]. intros [? ?]. congruence.
  - split; [| split; [done |]].
    + split; [by intros -> | by intros [= ->]].
    + rewrite filter_cons_True by (by eexists). done.
Qed.

(** The HTTP check succeeds exactly when the request is answered with
    status 200.  It makes one request; any other status, a redirect that
    is not followed too, fails with [returned status] and the code; the
    body is closed exactly when there was a response. *)
Theorem http_check_wants_status_200 net url timeout :
  ((HTTPGetCheck_run net url timeout).1 = None
   ↔ ClientGet net url timeout = inr 200%Z)
  ∧ (∀ code, ClientGet net url timeout = inr code → code ≠ 200%Z →
       (HTTPGetCheck_run net url timeout)
       = (Some ("returned status " +:+ pretty code),
          [Requested url; BodyClosed url]))
  ∧ (∀ e, ClientGet net url timeout = inl e →
       (HTTPGetCheck_run net url timeout) = (Some e, [Requested url])).
Proof.
  unfold HTTPGetCheck_run.
  destruct (ClientGet net url timeout) as [e|code]; simpl.
  - split; [done |]. split; [done |]. by intros ? [= ->].
  - split; [| split; [| done]].
    + case_decide as Hc; [by subst |]. split; [done | by intros [= ->]].
    + intros ? [= <-] Hne. by rewrite decide_False.
Qed.

(** The goroutine check counts as healthy in the handler exactly when the
    number of goroutines is at most the threshold, the threshold
    included. *)
Theorem goroutine_check_healthy_up_to_threshold count threshold :
  outcome (GoroutineCountCheck count threshold) = successCheckerResultString
  ↔ (count ≤ threshold)%Z.
Proof.
  unfold GoroutineCountCheck. case_decide as Hc; simpl.
  - split; [done | lia].
  - split; [lia | done].
Qed.

(** ** The probes of package [db] *)

Lemma scanRows_spec scans :
  match scanRows scans with
  | (None, evs) =>
      Forall (λ r, r = None) scans ∧ evs = replicate (length scans) RowScanned
  | (Some e, evs) =>
      ∃ pre post, scans = pre ++ Some e :: post
                  ∧ Forall (λ r, r = None) pre
                  ∧ evs = replicate (S (length pre)) RowScanned
  end.
Proof.
  induction scans as [|[e|] scans IH]; simpl.
  - by split.
  - exists [], scans. by repeat split.
  - destruct (scanRows scans) as [[e|] evs].
    + destruct IH as (pre & post & -> & Hpre & ->).
      exists (None :: pre), post.
      split; [done |]. split; [by constructor | done].
    + destruct IH as [Hall ->]. split; [by constructor | done].
Qed.

Lemma first_failing_scan_unique (pre pre' post post' : list (option string))
    e e' :
  pre ++ Some e :: post = pre' ++ Some e' :: post' →
  Forall (λ r, r = None) pre → Forall (λ r, r = None) pre' →
  pre = pre' ∧ e = e'.
Proof.
  revert pre'. induction pre as [|x pre IH]; intros pre' Heq Hp Hp'.
  - destruct pre' as [|y pre']; simpl in *; [by simplify_eq |].
    apply Forall_cons in Hp' as [-> _]. done.
  - apply Forall_cons in Hp as [-> Hp].
    destruct pre' as [|y pre']; simpl in *; [done |].
    apply Forall_cons in Hp' as [-> Hp']. injection Heq as Heq.
    by destruct (IH pre' Heq Hp Hp') as [-> ->].
Qed.

(** [DoSimpleSelect] sends the one query.  It returns the error of the
    query; or that of the first row that fails to scan, without scanning
    a row after it; or what [rows.Err()] gives after the last row: nil
    only when the query, every scan and [rows.Err()] are without error.
    It closes the rows, last of all, exactly when the query gave rows. *)
Theorem simple_select_returns_the_first_error QueryContext :
  (∀ err, QueryContext simpleSelect = inl err →
     DoSimpleSelect QueryContext = (Some err, [Queried simpleSelect]))
  ∧ (∀ rows pre e post,
       QueryContext simpleSelect = inr rows →
       scans rows = pre ++ Some e :: post → Forall (λ r, r = None) pre →
       DoSimpleSelect QueryContext
       = (Some e, Queried simpleSelect
                  :: replicate (S (length pre)) RowScanned ++ [RowsClosed]))
  ∧ (∀ rows,
       QueryContext simpleSelect = inr rows →
       Forall (λ r, r = None) (scans rows) →
       DoSimpleSelect QueryContext
       = (rowsErr rows,
          Queried simpleSelect
          :: replicate (length (scans rows)) RowScanned ++ [RowsClosed])).
Proof.
  unfold DoSimpleSelect. split; [| split].
  - by intros err ->.
  - intros rows pre e post -> Hsc Hpre.
    pose proof (scanRows_spec (scans rows)) as Hs.
    destruct (scanRows (scans rows)) as [[e'|] evs].
    + destruct Hs as (pre' & post' & Hsc' & Hpre' & ->).
      rewrite Hsc in Hsc'.
      by destruct (first_failing_scan_unique _ _ _ _ _ _ Hsc' Hpre Hpre')
        as [-> ->].
    + destruct Hs as [Hall _]. rewrite Hsc in Hall.
      apply Forall_app in Hall as [_ Hall]. by inversion Hall.
  - intros rows -> Hall.
    pose proof (scanRows_spec (scans rows)) as Hs.
    destruct (scanRows (scans rows)) as [[e'|] evs].
    + destruct Hs as (pre' & post' & Hsc' & _). rewrite Hsc' in Hall.
      apply Forall_app in Hall as [_ Hall]. by inversion Hall.
    + by destruct Hs as [_ ->].
Qed.

(** ** The probes in the handler *)

Lemma formatErrors_not_OK errs :
  formatErrors errs ≠ successCheckerResultString.
Proof. done. Qed.

Lemma ownFailure_not_OK c :
  ownFailure c → outcome c ≠ successCheckerResultString.
Proof.
  destruct 1 as [net host timeout Hl|net url timeout code Hg Hne
                |count threshold Hc|net endpoints timeout Hall|timeout].
  - unfold DNSResolveCheck, DNSResolveCheck_run. by rewrite Hl.
  - unfold HTTPGetCheck, HTTPGetCheck_run. rewrite Hg. simpl.
    by rewrite decide_False.
  - unfold GoroutineCountCheck. by rewrite decide_True.
  - unfold DialCheck, DialCheck_run. case_decide; [done |].
    pose proof (dialEach_spec net timeout endpoints []) as Hs.
    destruct (dialEach net timeout endpoints []) as [[errs|] evs]; [done |].
    destruct Hs as (pre & ep & post & -> & _ & Hr & _).
    apply Forall_app in Hall as [_ Hall]. apply Forall_cons in Hall as [Hn _].
    by destruct Hn.
  - done.
Qed.

(** None of the error messages the probes make up themselves is taken for
    a success: with such a probe registered, as a readiness or as a
    liveness check, [/ready] answers 503, and [/live] does when it is a
    liveness check. *)
Theorem failing_probe_answers_503 s name c h0 r scheds s' w' tr :
  ownFailure c →
  Method r = MethodGet →
  (livenessChecks s !! name = Some c
   ∧ LiveEndpoint s (freshWriter h0) r scheds = Some (Responded s' w' tr))
  ∨ ((livenessChecks s !! name = Some c ∨ readinessChecks s !! name = Some c)
     ∧ ReadyEndpoint s (freshWriter h0) r scheds
       = Some (Responded s' w' tr)) →
  Code w' = Some StatusServiceUnavailable.
Proof.
  intros Hown Hm Hcases. apply ownFailure_not_OK in Hown.
  destruct Hcases as [[Hl Hh]|[Hreg Hh]];
    apply handle_get in Hh as (_ & _ & -> & _); try done;
    rewrite decide_True; try done.
  - apply Exists_cons_hd. by exists name, c.
  - destruct Hreg as [Hl|Hr].
    + apply Exists_cons_tl, Exists_cons_hd. by exists name, c.
    + apply Exists_cons_hd. by exists name, c.
Qed.

(** ** The further properties at concrete inputs *)

Lemma all_checks_succeed_witness :
  let checks := [ {["db" := Returns None; "cache" := Returns None]} ]
                : list (gmap string Check) in
  let s := AddCheckErrorHandler (Callback 3) NewHandler in
  let r := {| Method := "GET"; Query := {["full" := ["1"]]} |} in
  let scheds := [[Go "db"; Go "cache"; Go "cache"; Go "db"; Go "db";
                  Go "cache"; Closer]] in
  ∃ w tr,
    Method r = MethodGet
    ∧ Forall (map_Forall (λ _ c, c = Returns None)) checks
    ∧ handle s (freshWriter ∅) r checks scheds = Some (Responded s w tr)
    ∧ Code w = Some StatusOK
    ∧ (∀ name, callbacks name tr = [])
    ∧ (Get (Query r) "full" = "1" →
       ∃ out, Body w = [IndentedJSON out]
              ∧ dom out = ⋃ (dom <$> checks)
              ∧ map_Forall (λ _ v, v = successCheckerResultString) out).
Proof.
  intros checks s r scheds.
  assert (Hm : Method r = MethodGet) by reflexivity.
  assert (Hall : Forall (map_Forall (λ _ c, c = Returns None)) checks)
    by (apply (bool_decide_unpack _); vm_compute; reflexivity).
  eassert (H : handle s (freshWriter ∅) r checks scheds = _)
    by (vm_compute; reflexivity).
  eexists _, _. split; [exact Hm |]. split; [exact Hall |].
  split; [exact H |].
  exact (all_checks_succeed_answers_200 _ _ _ _ _ _ _ _ Hm Hall H).
Defined.

Lemma no_panic_no_crash_witness :
  let checks := [ {["db" := Returns (Some "down"); "cache" := Returns None]} ]
                : list (gmap string Check) in
  let r := {| Method := "GET"; Query := ∅ |} in
  let scheds := [[Go "db"; Go "cache"; Go "cache"; Go "db"; Go "cache";
                  Go "db"; Closer]] in
  ∃ o,
    errorHandler NewHandler = None
    ∧ (∀ m name v, m ∈ checks → m !! name ≠ Some (Panics v))
    ∧ handle NewHandler (freshWriter ∅) r checks scheds = Some o
    ∧ ∃ s' w' tr, o = Responded s' w' tr.
Proof.
  intros checks r scheds.
  assert (He : errorHandler NewHandler = None) by reflexivity.
  assert (Hnp : ∀ m name v, m ∈ checks → m !! name ≠ Some (Panics v)).
  { apply no_panics_by_cases, (bool_decide_unpack _).
    vm_compute. reflexivity. }
  eassert (H : handle NewHandler (freshWriter ∅) r checks scheds = _)
    by (vm_compute; reflexivity).
  eexists. split; [exact He |]. split; [exact Hnp |]. split; [exact H |].
  exact (no_panic_no_crash _ _ _ _ _ _ He Hnp H).
Defined.

Lemma status_503_iff_witness :
  let checks := [ {["a" := Returns (Some "down")]} ]
                : list (gmap string Check) in
  let r := {| Method := "GET"; Query := ∅ |} in
  let scheds := [straight "a" ++ [Closer]] in
  ∃ w tr,
    (∀ m name v, m ∈ checks → m !! name ≠ Some (Panics v))
    ∧ Method r = MethodGet
    ∧ handle NewHandler (freshWriter ∅) r checks scheds
      = Some (Responded NewHandler w tr)
    ∧ Code w = Some StatusServiceUnavailable
    ∧ (Code w = Some StatusServiceUnavailable
       ↔ ∃ m name msg, m ∈ checks ∧ m !! name = Some (Returns (Some msg))
                       ∧ msg ≠ successCheckerResultString)
    ∧ (Code w = Some StatusOK ∨ Code w = Some StatusServiceUnavailable).
Proof.
  intros checks r scheds.
  assert (Hnp : ∀ m name v, m ∈ checks → m !! name ≠ Some (Panics v)).
  { apply no_panics_by_cases, (bool_decide_unpack _).
    vm_compute. reflexivity. }
  assert (Hm : Method r = MethodGet) by reflexivity.
  eassert (H : handle NewHandler (freshWriter ∅) r checks scheds = _)
    by (vm_compute; reflexivity).
  eexists _, _. split; [exact Hnp |]. split; [exact Hm |]. split; [exact H |].
  split; [reflexivity |].
  exact (status_503_iff_a_string_differs _ _ _ _ _ _ _ _ Hnp Hm H).
Defined.

Lemma liveness_registration_witness :
  let s := AddLivenessCheck "other" (Panics "boom")
             (AddReadinessCheck "db" (Returns (Some "replica lagging"))
                NewHandler) in
  let err := Some "primary down" in
  let r := {| Method := "GET"; Query := {["full" := ["1"]]} |} in
  let scheds := [straight "db" ++ [Closer];
                 [Go "other"; Go "db"; Go "other"; Go "db"; Go "other";
                  Go "db"; Go "other"; Closer]] in
  ∃ s' w tr,
    Method r = MethodGet ∧ Get (Query r) "full" = "1"
    ∧ (LiveEndpoint (AddLivenessCheck "db" (Returns err) s) (freshWriter ∅) r
         scheds = Some (Responded s' w tr)
       ∨ ReadyEndpoint (AddLivenessCheck "db" (Returns err) s) (freshWriter ∅)
           r scheds = Some (Responded s' w tr))
    ∧ ∃ out, Body w = [IndentedJSON out]
             ∧ out !! "db" = Some (default successCheckerResultString err).
Proof.
  intros s err r scheds.
  assert (Hm : Method r = MethodGet) by reflexivity.
  assert (Hq : Get (Query r) "full" = "1") by reflexivity.
  eassert (H : ReadyEndpoint (AddLivenessCheck "db" (Returns err) s)
                 (freshWriter ∅) r scheds = _)
    by (vm_compute; reflexivity).
  eexists _, _, _. split; [exact Hm |]. split; [exact Hq |].
  split; [right; exact H |].
  exact (liveness_registration_shows_in_both_details
           s "db" err ∅ r scheds _ _ _ Hm Hq (or_intror H)).
Defined.

Lemma readiness_failure_masked_witness :
  let s := AddLivenessCheck "db" (Returns None)
             (AddReadinessCheck "db" (Returns (Some "replica lagging"))
                NewHandler) in
  let r := {| Method := "GET"; Query := {["full" := ["1"]]} |} in
  let scheds := [straight "db" ++ [Closer]; straight "db" ++ [Closer]] in
  ∃ w tr,
    readinessChecks s !! "db" = Some (Returns (Some "replica lagging"))
    ∧ livenessChecks s !! "db" = Some (Returns None)
    ∧ "replica lagging" ≠ successCheckerResultString
    ∧ Method r = MethodGet ∧ Get (Query r) "full" = "1"
    ∧ ReadyEndpoint s (freshWriter ∅) r scheds = Some (Responded s w tr)
    ∧ Code w = Some StatusServiceUnavailable
    ∧ calls "db" tr = 2
    ∧ ∃ out, Body w = [IndentedJSON out] ∧ out !! "db" = Some "OK".
Proof.
  intros s r scheds.
  assert (Hr : readinessChecks s !! "db"
               = Some (Returns (Some "replica lagging"))) by reflexivity.
  assert (Hl : livenessChecks s !! "db" = Some (Returns None))
    by reflexivity.
  assert (Hne : "replica lagging" ≠ successCheckerResultString)
    by discriminate.
  assert (Hm : Method r = MethodGet) by reflexivity.
  assert (Hq : Get (Query r) "full" = "1") by reflexivity.
  eassert (H : ReadyEndpoint s (freshWriter ∅) r scheds = _)
    by (vm_compute; reflexivity).
  eexists _, _. split; [exact Hr |]. split; [exact Hl |].
  split; [exact Hne |]. split; [exact Hm |]. split; [exact Hq |].
  split; [exact H |].
  exact (readiness_failure_masked_in_detail
           _ _ _ _ _ _ _ _ _ _ Hr Hl Hne Hm Hq H).
Defined.

Lemma collectChecks_writes_witness :
  let checks := {["a" := Returns (Some "down")]} : gmap string Check in
  let out := {["a" := "OK"; "z" := "kept"]} : gmap string string in
  let sched := straight "a" ++ [Closer] in
  ∃ st,
    run sched (start NewHandler checks out []) = Some st
    ∧ resultsOut st = {["a" := "down"; "z" := "kept"]}
    ∧ (∀ name, checks !! name = None → resultsOut st !! name = out !! name)
    ∧ (finished st = true → crashed st = false →
       ∀ name c, checks !! name = Some c →
                 resultsOut st !! name = Some (outcome c)).
Proof.
  intros checks out sched.
  eassert (H : run sched (start NewHandler checks out []) = _)
    by (vm_compute; reflexivity).
  eexists. split; [exact H |]. split; [vm_compute; reflexivity |].
  exact (collectChecks_writes_only_its_names _ _ _ _ _ _ H).
Defined.

Lemma collectChecks_of_no_checks_witness :
  let s := AddCheckErrorHandler (Callback 2) NewHandler in
  let out := {["z" := "kept"]} : gmap string string in
  ∃ st,
    size (∅ : gmap string Check) = 0
    ∧ collectChecks s ∅ out [CheckCalled "z"] [] = Some st
    ∧ [] = ([] : list label) ∧ status st = StatusOK ∧ resultsOut st = out
    ∧ trace st = [CheckCalled "z"] ∧ self st = s ∧ crashed st = false.
Proof.
  intros s out.
  assert (Hz : size (∅ : gmap string Check) = 0) by reflexivity.
  eassert (H : collectChecks s ∅ out [CheckCalled "z"] [] = _)
    by (vm_compute; reflexivity).
  eexists. split; [exact Hz |]. split; [exact H |].
  exact (collectChecks_of_no_checks _ _ _ _ _ _ Hz H).
Defined.

Lemma checks_run_under_the_read_lock_witness :
  let checks := {["a" := Panics "boom"; "b" := Returns None]}
                : gmap string Check in
  let sched := [Go "a"; Go "a"; Go "a"; Go "b"; Go "b"; Go "b"; Closer] in
  ∃ st,
    run sched (start NewHandler checks ∅ []) = Some st
    ∧ closed st = true ∧ exited st = false
    ∧ checksMutex (self st)
      = (if closed st then checksMutex NewHandler
         else S (checksMutex NewHandler))
    ∧ (closed st = true →
       ∀ name, calls name (trace st)
               = calls name [] + registered checks name).
Proof.
  intros checks sched.
  eassert (H : run sched (start NewHandler checks ∅ []) = _)
    by (vm_compute; reflexivity).
  eexists. split; [exact H |]. split; [vm_compute; reflexivity |].
  split; [vm_compute; reflexivity |].
  exact (checks_run_under_the_read_lock _ _ _ _ _ _ H).
Defined.

Lemma answer_independent_of_schedule_witness :
  let checks := [ {["a" := Returns (Some "down"); "b" := Returns None]} ]
                : list (gmap string Check) in
  let s := AddCheckErrorHandler (Callback 7) NewHandler in
  let r := {| Method := "GET"; Query := {["full" := ["1"]]} |} in
  let scheds1 := [straight "a" ++ straight "b" ++ [Closer]] in
  let scheds2 := [[Go "b"; Go "a"; Go "b"; Go "a"; Go "a"; Go "b"; Closer]] in
  ∃ w1 tr1 w2 tr2,
    (∀ m name v, m ∈ checks → m !! name ≠ Some (Panics v))
    ∧ Method r = MethodGet
    ∧ handle s (freshWriter ∅) r checks scheds1 = Some (Responded s w1 tr1)
    ∧ handle s (freshWriter ∅) r checks scheds2 = Some (Responded s w2 tr2)
    ∧ tr1 ≠ tr2
    ∧ w1 = w2.
Proof.
  intros checks s r scheds1 scheds2.
  assert (Hnp : ∀ m name v, m ∈ checks → m !! name ≠ Some (Panics v)).
  { apply no_panics_by_cases, (bool_decide_unpack _).
    vm_compute. reflexivity. }
  assert (Hm : Method r = MethodGet) by reflexivity.
  eassert (H1 : handle s (freshWriter ∅) r checks scheds1 = _)
    by (vm_compute; reflexivity).
  eassert (H2 : handle s (freshWriter ∅) r checks scheds2 = _)
    by (vm_compute; reflexivity).
  eexists _, _, _, _. split; [exact Hnp |]. split; [exact Hm |].
  split; [exact H1 |]. split; [exact H2 |]. split; [discriminate |].
  exact (answer_independent_of_schedule
           _ _ _ _ _ _ _ _ _ _ _ _ Hnp Hm H1 H2).
Defined.

Lemma callback_only_for_a_failed_check_witness :
  let s := AddCheckErrorHandler (Callback 2)
             (AddCheckErrorHandler (Callback 1) NewHandler) in
  let checks := {["a" := Returns (Some "down"); "p" := Panics "boom"]}
                : gmap string Check in
  let sched := [Go "p"; Go "a"; Go "p"; Go "a"; Go "a"; Closer; Go "p"] in
  let ev := HandlerCalled (Callback 2) "a" "down" in
  ∃ st,
    run sched (start s checks ∅ []) = Some st
    ∧ crashed st = true
    ∧ ev ∈ trace st
    ∧ (ev ∈ ([] : list Event)
       ∨ (errorHandler s = Some (Callback 2)
          ∧ ∃ c, checks !! "a" = Some c ∧ failed c)).
Proof.
  intros s checks sched ev.
  eassert (H : run sched (start s checks ∅ []) = Some _)
    by (vm_compute; reflexivity).
  assert (Hin : ev ∈ [CheckCalled "p"; CheckCalled "a"; ev])
    by (apply list_elem_of_further, list_elem_of_further, list_elem_of_here).
  eexists. split; [exact H |]. split; [reflexivity |].
  split; [exact Hin |].
  exact (callback_only_for_a_failed_check _ _ _ _ _ _ _ _ _ H Hin).
Defined.


Lemma one_entry_per_name_witness :
  let checks := [ {["a" := Returns (Some "down"); "b" := Returns None]};
                  {["a" := Returns None]} ] : list (gmap string Check) in
  let scheds := [straight "a" ++ straight "b" ++ [Closer];
                 straight "a" ++ [Closer]] in
  ∃ out code tr,
    (∀ m name v, m ∈ checks → m !! name ≠ Some (Panics v))
    ∧ collectLoop checks scheds NewHandler ∅ StatusOK []
      = Some (Done NewHandler out code tr)
    ∧ out = {["a" := "OK"; "b" := "OK"]}
    ∧ code = StatusServiceUnavailable
    ∧ dom out = ⋃ (dom <$> checks)
    ∧ (∀ name, out !! name = outcome <$> latest checks name).
Proof.
  intros checks scheds.
  assert (Hnp : ∀ m name v, m ∈ checks → m !! name ≠ Some (Panics v)).
  { apply no_panics_by_cases, (bool_decide_unpack _).
    vm_compute. reflexivity. }
  eassert (H : collectLoop checks scheds NewHandler ∅ StatusOK [] = _)
    by (vm_compute; reflexivity).
  eexists _, _, _. split; [exact Hnp |]. split; [exact H |].
  split; [reflexivity |]. split; [reflexivity |].
  exact (one_entry_per_name_later_mapping_wins _ _ _ _ _ _ _ Hnp H).
Defined.

Lemma endpoints_call_their_mappings_witness :
  let s := AddReadinessCheck "both" (Returns None)
             (AddReadinessCheck "ready" (Returns (Some "warming up"))
                (AddLivenessCheck "both" (Returns None) NewHandler)) in
  let r := {| Method := "GET"; Query := ∅ |} in
  let scheds := [straight "both" ++ straight "ready" ++ [Closer];
                 straight "both" ++ [Closer]] in
  ∃ w tr,
    Method r = MethodGet
    ∧ ReadyEndpoint s (freshWriter ∅) r scheds = Some (Responded s w tr)
    ∧ calls "both" tr = 2 ∧ calls "ready" tr = 1
    ∧ (LiveEndpoint s (freshWriter ∅) r scheds = Some (Responded s w tr) →
       ∀ name, calls name tr = registered (livenessChecks s) name)
    ∧ (ReadyEndpoint s (freshWriter ∅) r scheds = Some (Responded s w tr) →
       ∀ name, calls name tr = registered (readinessChecks s) name
                               + registered (livenessChecks s) name).
Proof.
  intros s r scheds.
  assert (Hm : Method r = MethodGet) by reflexivity.
  eassert (H : ReadyEndpoint s (freshWriter ∅) r scheds = _)
    by (vm_compute; reflexivity).
  eexists _, _. split; [exact Hm |]. split; [exact H |].
  split; [reflexivity |]. split; [reflexivity |].
  exact (endpoints_call_their_mappings s ∅ r scheds _ _ _ Hm).
Defined.

Lemma failing_check_answers_503_witness :
  let s := AddLivenessCheck "alive" (Returns None)
             (AddReadinessCheck "db" (Returns (Some "replica lagging"))
                NewHandler) in
  let r := {| Method := "GET"; Query := ∅ |} in
  let scheds := [straight "db" ++ [Closer]; straight "alive" ++ [Closer]] in
  ∃ w tr,
    "replica lagging" ≠ successCheckerResultString
    ∧ Method r = MethodGet
    ∧ readinessChecks s !! "db" = Some (Returns (Some "replica lagging"))
    ∧ ReadyEndpoint s (freshWriter ∅) r scheds = Some (Responded s w tr)
    ∧ Code w = Some StatusServiceUnavailable.
Proof.
  intros s r scheds.
  assert (Hne : "replica lagging" ≠ successCheckerResultString)
    by discriminate.
  assert (Hm : Method r = MethodGet) by reflexivity.
  assert (Hr : readinessChecks s !! "db"
               = Some (Returns (Some "replica lagging"))) by reflexivity.
  eassert (H : ReadyEndpoint s (freshWriter ∅) r scheds = _)
    by (vm_compute; reflexivity).
  eexists _, _. split; [exact Hne |]. split; [exact Hm |].
  split; [exact Hr |]. split; [exact H |].
  exact (proj1 (proj2 (failing_check_answers_503_where_it_is_evaluated
                         s "db" "replica lagging" ∅ r scheds _ _ _ Hne Hm))
           Hr H).
Defined.

Lemma kafka_stops_witness :
  let endpoints := ["b0:9092"; "b1:9092"; "b2:9092"; "b3:9092"] in
  (DialCheck_run testNetwork endpoints 1000).1 = None
  ∧ (DialCheck_run testNetwork endpoints 1000).2
    = [Dialed "b0:9092"; Dialed "b1:9092"; ConnClosed "b1:9092";
       Dialed "b2:9092"; ConnClosed "b2:9092"]
  ∧ ∃ pre ep post,
      endpoints = pre ++ ep :: post
      ∧ Forall (λ e, ¬ reachable testNetwork 1000 e) pre
      ∧ reachable testNetwork 1000 ep
      ∧ dialled (DialCheck_run testNetwork endpoints 1000).2 = pre ++ [ep].
Proof.
  intros endpoints.
  assert (H : (DialCheck_run testNetwork endpoints 1000).1 = None)
    by reflexivity.
  split; [exact H |]. split; [reflexivity |].
  exact (kafka_stops_at_the_first_reachable_endpoint _ _ _ H).
Defined.

Lemma kafka_failure_witness :
  let endpoints := ["b0:9092"; "b1:9092"] in
  let msg := "[connection refused close failed]" in
  (DialCheck_run testNetwork endpoints 1000).1 = Some msg
  ∧ ((endpoints = [] ∧ msg = "empty kafka endpoints"
      ∧ (DialCheck_run testNetwork endpoints 1000).2 = [])
     ∨ (endpoints ≠ []
        ∧ dialled (DialCheck_run testNetwork endpoints 1000).2 = endpoints
        ∧ msg = formatErrors
                  (omap (endpointError testNetwork 1000) endpoints)
        ∧ length (omap (endpointError testNetwork 1000) endpoints)
          = length endpoints)).
Proof.
  intros endpoints msg.
  assert (H : (DialCheck_run testNetwork endpoints 1000).1 = Some msg)
    by reflexivity.
  split; [exact H |].
  exact (kafka_failure_lists_an_error_per_endpoint _ _ _ _ H).
Defined.

Lemma failing_probe_witness :
  let c := HTTPGetCheck testNetwork "http://backend/health" 1000 in
  let s := AddReadinessCheck ("backend" +:+ HTTPGetSuffix) c NewHandler in
  let r := {| Method := "GET"; Query := {["full" := ["1"]]} |} in
  let scheds := [straight "backend_http_get" ++ [Closer]; []] in
  ∃ w tr,
    ownFailure c
    ∧ Method r = MethodGet
    ∧ ((livenessChecks s !! "backend_http_get" = Some c
        ∧ LiveEndpoint s (freshWriter ∅) r scheds = Some (Responded s w tr))
       ∨ ((livenessChecks s !! "backend_http_get" = Some c
           ∨ readinessChecks s !! "backend_http_get" = Some c)
          ∧ ReadyEndpoint s (freshWriter ∅) r scheds
            = Some (Responded s w tr)))
    ∧ Body w = [IndentedJSON {["backend_http_get" := "returned status 302"]}]
    ∧ Code w = Some StatusServiceUnavailable.
Proof.
  intros c s r scheds.
  assert (Hown : ownFailure c).
  { apply (http_other_status testNetwork "http://backend/health" 1000%Z
             302%Z); [reflexivity | discriminate]. }
  assert (Hm : Method r = MethodGet) by reflexivity.
  assert (Hreg : readinessChecks s !! "backend_http_get" = Some c)
    by reflexivity.
  eassert (H : ReadyEndpoint s (freshWriter ∅) r scheds = _)
    by (vm_compute; reflexivity).
  eexists _, _. split; [exact Hown |]. split; [exact Hm |].
  split; [right; split; [right; exact Hreg | exact H] |].
  split; [reflexivity |].
  exact (failing_probe_answers_503 s "backend_http_get" c ∅ r scheds _ _ _
           Hown Hm (or_intror (conj (or_intror Hreg) H))).
Defined.
